(** * Sudoku board of [sdk_board.py]: tiles, groups, propagation, search

    A shallow embedding of the classes [Tile] and [Board].  Tiles are
    mutable objects shared between the tile matrix and the groups; a
    reference to a tile is modelled by its coordinates, and every method
    that mutates tiles is a function from board to board.  The listener
    machinery ([Listenable.notify_all]) is modelled with no listener
    attached, where it does nothing. *)

From stdpp Require Import ssreflect gmap strings list sets sorting.

#[local] Set Warnings "-rewrite-rw,-clear-no-such-hyp".

Open Scope string_scope.
Open Scope list_scope.
Open Scope nat_scope.

(** ** Configuration and run-time parameters *)

(** The constants that [sdk_board.py] imports from [sdk_config]. *)
Class SdkConfig := {
  ROOT : nat;
  NROWS : nat;
  NCOLS : nat;
  CHOICES : list string;
  UNKNOWN : string
}.

(** Python leaves the order in which a [set] is iterated unspecified;
    [set_iter s] is the sequence a [for] loop over [s] visits. *)
Class SetOrder := { set_iter : gset string → list string }.

(** What the code relies on from its configuration. *)
Record ConfigOK `{SdkConfig} : Prop := {
  unknown_not_choice : UNKNOWN ∉ CHOICES;
  nrows_square : NROWS = ROOT * ROOT;
  ncols_square : NCOLS = ROOT * ROOT;
  choices_one_char : Forall (λ s, String.length s = 1) CHOICES;
  unknown_one_char : String.length UNKNOWN = 1
}.

(** A [for] loop over a set visits each element exactly once. *)
Definition SetOrderOK `{SetOrder} : Prop :=
  ∀ s : gset string, set_iter s ≡ₚ elements s.

(** ** Tiles *)

Record Tile := mkTile {
  row : nat;
  col : nat;
  value : string;
  candidates : gset string
}.

#[global] Instance Tile_eq_dec : EqDecision Tile.
Proof. solve_decision. Defined.

Abbreviation pos := (nat * nat)%type.
Abbreviation Board := (list (list Tile)).

Section Model.
Context `{SdkConfig} `{SetOrder}.

Definition with_candidates (t : Tile) (c : gset string) : Tile :=
  {| row := row t; col := col t; value := value t; candidates := c |}.

(** [Tile.set_value] *)
Definition set_value (t : Tile) (v : string) : Tile :=
  if decide (v ∈ CHOICES)
  then {| row := row t; col := col t; value := v; candidates := {[ v ]} |}
  else {| row := row t; col := col t; value := UNKNOWN;
          candidates := list_to_set CHOICES |}.

(** [Tile.__init__]; the assertion on [value] is not modelled. *)
Definition new_tile (r c : nat) (v : string) : Tile :=
  set_value {| row := r; col := c; value := UNKNOWN; candidates := ∅ |} v.

(** [Tile.could_be] *)
Definition could_be (t : Tile) (v : string) : bool :=
  bool_decide (v ∈ candidates t).

(** [Tile.remove_candidates]: the returned flag and the tile afterwards. *)
Definition remove_candidates (t : Tile) (used_values : gset string)
    : bool * Tile :=
  let new_candidates := candidates t ∖ used_values in
  if decide (new_candidates = candidates t) then (false, t)
  else
    let t1 := with_candidates t new_candidates in
    match elements new_candidates with
    | [v] => (true, set_value t1 v)
    | _ => (true, t1)
    end.

(** ** Boards *)

Definition dummy_tile : Tile :=
  {| row := 0; col := 0; value := UNKNOWN; candidates := ∅ |}.

(** [self.tiles[r][c]] *)
Definition tile_at (b : Board) (p : pos) : Tile :=
  default dummy_tile (b !! p.1 ≫= (.!! p.2)).

(** In-place mutation of the tile object at [p]. *)
Definition update_tile (b : Board) (p : pos) (f : Tile → Tile) : Board :=
  alter (alter f p.2) p.1 b.

(** [Board.create_groups]: blocks, then rows, then columns. *)
Definition block_group (block_row block_col : nat) : list pos :=
  flat_map (λ r, map (λ c, (ROOT * block_row + r, ROOT * block_col + c))
                     (seq 0 ROOT)) (seq 0 ROOT).

Definition create_groups : list (list pos) :=
  flat_map (λ block_row, map (block_group block_row) (seq 0 ROOT)) (seq 0 ROOT)
  ++ map (λ r, map (λ c, (r, c)) (seq 0 NCOLS)) (seq 0 NROWS)
  ++ map (λ c, map (λ r, (r, c)) (seq 0 NROWS)) (seq 0 NCOLS).

(** [Board.__init__]: the empty board. *)
Definition empty_board : Board :=
  map (λ r, map (λ c, new_tile r c UNKNOWN) (seq 0 NCOLS)) (seq 0 NROWS).

(** A [str] indexed as a sequence yields its one-character strings. *)
Definition str_items (s : string) : list string :=
  map (λ c, String c "") (String.list_ascii_of_string s).

(** [Board.set_tiles]; [None] is the [IndexError] of a short input. *)
Definition set_tiles (b : Board) (tile_values : list (list string))
    : option Board :=
  foldl (λ ob row_num,
    foldl (λ ob col_num,
      b ← ob;
      v ← tile_values !! row_num ≫= (.!! col_num);
      Some (update_tile b (row_num, col_num) (λ t, set_value t v)))
      ob (seq 0 NCOLS))
    (Some b) (seq 0 NROWS).

(** [Board.as_list] *)
Definition as_list (b : Board) : list string :=
  map (λ r, String.concat "" (map value r)) b.

(** [Board.is_consistent] *)
Definition group_values (b : Board) (g : list pos) : list string :=
  filter (λ v, v ≠ UNKNOWN) (map (λ p, value (tile_at b p)) g).

Definition is_consistent (b : Board) : bool :=
  forallb (λ g,
    let values := group_values b g in
    bool_decide (length values = size (list_to_set values : gset string)))
    create_groups.

(** [Board.naked_single] *)
Definition naked_step (used_values : gset string) (st : bool * Board)
    (p : pos) : bool * Board :=
  let t := tile_at st.2 p in
  if decide (value t = UNKNOWN) then
    let r := remove_candidates t used_values in
    (if r.1 then true else st.1, update_tile st.2 p (λ _, r.2))
  else st.

Definition naked_group (st : bool * Board) (g : list pos) : bool * Board :=
  let used_values : gset string := list_to_set (group_values st.2 g) in
  foldl (naked_step used_values) st g.

Definition naked_single (b : Board) : bool * Board :=
  foldl naked_group (false, b) create_groups.

(** [Board.hidden_single] *)
Definition leftovers (b : Board) (g : list pos) : gset string :=
  foldl (λ (l : gset string) p,
           if decide (value (tile_at b p) ∈ l)
           then l ∖ {[ value (tile_at b p) ]} else l)
        (list_to_set CHOICES) g.

Definition hidden_step (g : list pos) (st : bool * Board) (v : string)
    : bool * Board :=
  let possible_tiles := filter (λ p, v ∈ candidates (tile_at st.2 p)) g in
  match possible_tiles with
  | [p] => (true, update_tile st.2 p (λ t, set_value t v))
  | _ => st
  end.

Definition hidden_group (st : bool * Board) (g : list pos) : bool * Board :=
  foldl (hidden_step g) st (set_iter (leftovers st.2 g)).

Definition hidden_single (b : Board) : bool * Board :=
  foldl hidden_group (false, b) create_groups.

(** [Board.propagate]; [fuel] bounds the iterations of the [while]. *)
Fixpoint propagate (fuel : nat) (b : Board) : option Board :=
  match fuel with
  | 0 => None
  | S fuel' =>
      let n := naked_single b in
      let h := hidden_single n.2 in
      if n.1 then propagate fuel' h.2 else Some h.2
  end.

(** [Board.is_complete] *)
Definition is_complete (b : Board) : bool :=
  forallb (forallb (λ p, bool_decide (value (tile_at b p) ≠ UNKNOWN)))
          create_groups.

(** [Board.min_choice_tile]: the loop state is [(min_candidates,
    min_tile)], with [None] for the initial [float('inf')] and [None]. *)
Definition min_step (b : Board) (acc : option (nat * pos)) (p : pos)
    : option (nat * pos) :=
  let t := tile_at b p in
  if decide (value t = UNKNOWN) then
    let num_candidates := size (candidates t) in
    match acc with
    | None => Some (num_candidates, p)
    | Some (min_candidates, _) =>
        if decide (num_candidates < min_candidates)
        then Some (num_candidates, p) else acc
    end
  else acc.

Definition min_choice_tile (b : Board) : option pos :=
  (λ m : nat * pos, m.2) <$> foldl (min_step b) None (concat create_groups).

(** The [for value in tile_to_guess.candidates] loop of [Board.solve];
    [rec] is the recursive call. *)
Fixpoint try_values (rec : Board → option (bool * Board))
    (saved_state : list string) (tile_to_guess : pos)
    (values : list string) (b : Board) : option (bool * Board) :=
  match values with
  | [] => Some (false, b)
  | v :: values' =>
      match rec (update_tile b tile_to_guess (λ t, set_value t v)) with
      | None => None
      | Some (true, b1) => Some (true, b1)
      | Some (false, b1) =>
          b' ← set_tiles b1 (map str_items saved_state);
          try_values rec saved_state tile_to_guess values' b'
      end
  end.

(** [Board.solve]; [fuel] bounds the recursion depth and the iterations
    of each [propagate]. *)
Fixpoint solve (fuel : nat) (b : Board) : option (bool * Board) :=
  match fuel with
  | 0 => None
  | S fuel' =>
      b1 ← propagate fuel b;
      if is_complete b1 then Some (true, b1)
      else if negb (is_consistent b1) then Some (false, b1)
      else
        let saved_state := as_list b1 in
        tile_to_guess ← min_choice_tile b1;
        try_values (solve fuel') saved_state tile_to_guess
                   (set_iter (candidates (tile_at b1 tile_to_guess))) b1
  end.

(** ** Notifications *)

(** [EventKind] *)
Inductive EventKind := TileChanged | TileGuessed.

(** One call [listener.notify(TileEvent(tile, kind))]: the listener (its
    position in the order of attachment names it), the kind of the event
    and the state in which the listener finds the tile. *)
Record Notification := mkNotification {
  listener : nat;
  kind : EventKind;
  seen : Tile
}.

(** [Listenable.add_listener] *)
Definition add_listener (listeners : list nat) (l : nat) : list nat :=
  listeners ++ [l].

(** [Listenable.notify_all]: every attached listener is called, in the
    order of attachment. *)
Definition notify_all (listeners : list nat) (k : EventKind) (t : Tile)
    : list Notification :=
  map (λ l, mkNotification l k t) listeners.

(** [Tile.set_value] on a tile with listeners: the tile afterwards and
    the calls made. *)
Definition set_value_notify (listeners : list nat) (t : Tile) (v : string)
    : Tile * list Notification :=
  let t' := set_value t v in
  (t', notify_all listeners TileChanged t').

(** [Tile.remove_candidates] on a tile with listeners. *)
Definition remove_candidates_notify (listeners : list nat) (t : Tile)
    (used_values : gset string) : bool * Tile * list Notification :=
  let new_candidates := candidates t ∖ used_values in
  if decide (new_candidates = candidates t) then (false, t, [])
  else
    let t1 := with_candidates t new_candidates in
    match elements new_candidates with
    | [v] =>
        let r := set_value_notify listeners t1 v in
        (true, r.1, r.2 ++ notify_all listeners TileChanged r.1)
    | _ => (true, t1, notify_all listeners TileChanged t1)
    end.

End Model.

(** Modelled from the spec: the module [sdk_config] is not part of the
    sources at hand; the spec gives the default 9x9 board with 3x3 blocks
    and the alphabet "1".."9", with a placeholder character for UNKNOWN. *)
Definition sdk9 : SdkConfig :=
  {| ROOT := 3; NROWS := 9; NCOLS := 9;
     CHOICES := ["1"; "2"; "3"; "4"; "5"; "6"; "7"; "8"; "9"];
     UNKNOWN := "." |}.

(** Another admissible iteration order: that of [elements]. *)
Definition elements_order : SetOrder := {| set_iter := elements |}.

(** One admissible iteration order: ascending by symbol. *)
Definition sorted_order : SetOrder :=
  {| set_iter := λ s, merge_sort (λ a b, String.leb a b) (elements s) |}.

(** ** Specification vocabulary *)

Section Vocabulary.
Context `{SdkConfig} `{SetOrder}.

(** Loading a puzzle: [Board()] followed by [set_tiles(rows)]. *)
Definition load (rows : list string) : option Board :=
  set_tiles empty_board (map str_items rows).

Definition in_range (p : pos) : Prop := p.1 < NROWS ∧ p.2 < NCOLS.

(** The tile matrix has [NROWS] rows of [NCOLS] tiles. *)
Definition shape (b : Board) : Prop :=
  length b = NROWS ∧ Forall (λ r, length r = NCOLS) b.

(** The per-tile invariant of the data model. *)
Definition cell_inv (t : Tile) : Prop :=
  (value t ∈ CHOICES → candidates t = {[ value t ]}) ∧
  (value t = UNKNOWN → candidates t ⊆ list_to_set CHOICES).

(** A tile's value is UNKNOWN or a symbol, and the invariant holds. *)
Definition tile_ok (t : Tile) : Prop :=
  (value t = UNKNOWN ∨ value t ∈ CHOICES) ∧ cell_inv t.

Definition board_ok (b : Board) : Prop :=
  shape b ∧ Forall (Forall tile_ok) b.

(** A board as [set_tiles] leaves it: UNKNOWN tiles admit every symbol. *)
Definition fresh (b : Board) : Prop :=
  board_ok b ∧
  Forall (Forall (λ t, value t = UNKNOWN →
                       candidates t = list_to_set CHOICES)) b.

Definition all_pos : list pos :=
  flat_map (λ r, map (λ c, (r, c)) (seq 0 NCOLS)) (seq 0 NROWS).

Definition occurrences (s : string) (l : list string) : nat :=
  length (filter (λ x, x = s) l).

(** [sol] is a solved grid: it assigns a symbol to every cell and every
    group contains each symbol exactly once. *)
Definition latin (sol : pos → string) : Prop :=
  Forall (λ p, sol p ∈ CHOICES) all_pos ∧
  Forall (λ g, Forall (λ s, occurrences s (sol <$> g) = 1) CHOICES)
         create_groups.

(** [sol] agrees with the known values of [b]. *)
Definition agrees (sol : pos → string) (b : Board) : Prop :=
  Forall (λ p, value (tile_at b p) ≠ UNKNOWN → sol p = value (tile_at b p))
         all_pos.

Definition valid_completion (sol : pos → string) (b : Board) : Prop :=
  latin sol ∧ agrees sol b.

(** The symbol that [tile_values] holds for cell [p], if any. *)
Definition sym_at (tile_values : list (list string)) (p : pos)
    : option string :=
  tile_values !! p.1 ≫= (.!! p.2).

(** The cells that [set_tiles] has written when its loops reach row [m],
    column [n]. *)
Definition written (m n : nat) (p : pos) : Prop :=
  p.1 < m ∨ (p.1 = m ∧ p.2 < n).

(** Two boards hold the same values. *)
Definition same_values (b b' : Board) : Prop :=
  ∀ p, in_range p → value (tile_at b p) = value (tile_at b' p).

(** Every tile still admits the value [sol] gives it. *)
Definition admits (sol : pos → string) (b : Board) : Prop :=
  ∀ p, in_range p → sol p ∈ candidates (tile_at b p).

Definition board_sum (w : Tile → nat) (b : Board) : nat :=
  sum_list_with (sum_list_with w) b.

Definition cand_sum (b : Board) : nat :=
  board_sum (λ t, size (candidates t)) b.

(** An upper bound of [cand_sum] that depends on the values only. *)
Definition tile_cap (t : Tile) : nat :=
  if decide (value t = UNKNOWN) then S (length CHOICES) else 1.

Definition cap (b : Board) : nat := board_sum tile_cap b.

(** Fuel that is enough for [solve] on [b]. *)
Definition solve_fuel (b : Board) : nat := S (cap b).

(** Tiles that have a value keep it from [b] to [b']. *)
Definition known_kept (b b' : Board) : Prop :=
  ∀ p, in_range p → value (tile_at b p) ≠ UNKNOWN →
       tile_at b' p = tile_at b p.

(** [b'] is [b] with candidates crossed off and tiles resolved. *)
Definition narrows (b b' : Board) : Prop :=
  board_ok b' ∧ cand_sum b' ≤ cand_sum b ∧ cap b' ≤ cap b ∧
  known_kept b b'.

(** One state of the [naked_single] loops leads to a later one: the board
    narrows, the progress flag stays set, and setting it costs at least
    one candidate. *)
Definition advances (st st' : bool * Board) : Prop :=
  narrows st.2 st'.2 ∧ (st.1 = true → st'.1 = true) ∧
  (st'.1 = true → st.1 = true ∨ cand_sum st'.2 < cand_sum st.2).

(** No leftover symbol of any group has exactly one admitting tile:
    [hidden_single] finds nothing to do, whatever the iteration order. *)
Definition hidden_idle (b : Board) : bool :=
  forallb (λ g,
    forallb (λ v,
      negb (bool_decide
        (length (filter (λ p, v ∈ candidates (tile_at b p)) g) = 1)))
      (elements (leftovers b g)))
    create_groups.

(** [propagate] on boards where [hidden_single] stays idle: the rounds
    consist of [naked_single] alone, and no set is iterated. *)
Fixpoint propagate_idle (fuel : nat) (b : Board) : option Board :=
  match fuel with
  | 0 => None
  | S fuel' =>
      let n := naked_single b in
      if hidden_idle n.2
      then if n.1 then propagate_idle fuel' n.2 else Some n.2
      else None
  end.

(** The tiles that have a value in [b] have the same value in [b']. *)
Definition values_kept (b b' : Board) : Prop :=
  ∀ p, in_range p → value (tile_at b p) ≠ UNKNOWN →
       value (tile_at b' p) = value (tile_at b p).

(** No tile of [b'] admits a symbol that it did not admit in [b], and
    every tile keeps its coordinates. *)
Definition shrinks (b b' : Board) : Prop :=
  ∀ p, in_range p →
       candidates (tile_at b' p) ⊆ candidates (tile_at b p) ∧
       row (tile_at b' p) = row (tile_at b p) ∧
       col (tile_at b' p) = col (tile_at b p).

(** An input of [set_tiles] in the documented format: [NROWS] strings of
    [NCOLS] characters, each a symbol or the UNKNOWN placeholder. *)
Definition well_formed_rows (rows : list string) : Prop :=
  length rows = NROWS ∧
  Forall (λ s, length (str_items s) = NCOLS ∧
               Forall (λ v, v = UNKNOWN ∨ v ∈ CHOICES) (str_items s)) rows.

#[global] Instance in_range_dec p : Decision (in_range p).
Proof. unfold in_range. apply _. Defined.

#[global] Instance shape_dec b : Decision (shape b).
Proof. unfold shape. apply _. Defined.

#[global] Instance cell_inv_dec t : Decision (cell_inv t).
Proof. unfold cell_inv. apply _. Defined.

#[global] Instance tile_ok_dec t : Decision (tile_ok t).
Proof. unfold tile_ok. apply _. Defined.

#[global] Instance board_ok_dec b : Decision (board_ok b).
Proof. unfold board_ok. apply _. Defined.

#[global] Instance fresh_dec b : Decision (fresh b).
Proof. unfold fresh. apply _. Defined.

#[global] Instance well_formed_rows_dec rows :
  Decision (well_formed_rows rows).
Proof. unfold well_formed_rows. apply _. Defined.

#[global] Instance valid_completion_dec sol b :
  Decision (valid_completion sol b).
Proof. unfold valid_completion, latin, agrees. apply _. Defined.

End Vocabulary.

(** ** Concrete data for the examples *)

(** A completed grid. *)
Definition solved_rows : list string :=
  ["123456789"; "456789123"; "789123456";
   "231564897"; "564897231"; "897231564";
   "312645978"; "645978312"; "978312645"].

(** [solved_rows] with (0,8) and (3,7) blanked and (3,8) changed to "9". *)
Definition trap_rows : list string :=
  ["12345678."; "456789123"; "789123456";
   "2315648.9"; "564897231"; "897231564";
   "312645978"; "645978312"; "978312645"].

(** [solved_rows] with (0,8), (1,5), (2,8) blanked and (1,8) changed
    to "9". *)
Definition stuck_rows : list string :=
  ["12345678."; "45678.129"; "78912345.";
   "231564897"; "564897231"; "897231564";
   "312645978"; "645978312"; "978312645"].

(** A consistent puzzle with twelve givens. *)
Definition twelve_rows : list string :=
  [".......3."; "........."; ".3.......";
   "....5...3"; "....3.5.."; ".........";
   "8.7...1.."; "..2..3..."; "........5"].

(** An easy puzzle and the function that reads a grid of symbols. *)
Definition easy_rows : list string :=
  ["...26.7.1"; "68..7..9."; "19...45..";
   "82.1...4."; "..46.29.."; ".5...3.28";
   "..93...74"; ".4..5..36"; "7.3.18..."].

Definition easy_solution : list string :=
  ["435269781"; "682571493"; "197834562";
   "826195347"; "374682915"; "951743628";
   "519326874"; "248957136"; "763418259"].

(** A puzzle with a single given, and an input with symbols outside the
    alphabet. *)
Definition one_given_rows : list string :=
  ["1........"; "........."; "........."; "........."; ".........";
   "........."; "........."; "........."; "........."].

Definition junk_rows : list string :=
  ["x2345678z"; "........."; "0000 0000"; "........."; ".........";
   "........."; "........."; "........."; "abcdefghi"].

Definition grid_fun (rows : list string) (p : pos) : string :=
  default "" (map str_items rows !! p.1 ≫= (.!! p.2)).

Definition board_of `{SdkConfig} (rows : list string) : Board :=
  default [] (load rows).

(** The boards that propagation makes of [trap_rows] and [stuck_rows]. *)
Definition trap_filled : Board :=
  default [] (@propagate_idle sdk9 2 (@board_of sdk9 trap_rows)).

Definition stuck_propagated : Board :=
  default [] (@propagate_idle sdk9 2 (@board_of sdk9 stuck_rows)).

(** * Properties *)

(** ** Generic facts about loops and lists *)

Lemma foldl_invariant {A B} (I : A → Prop) (P : B → Prop) (f : A → B → A)
    (l : list B) (a : A) :
  I a → Forall P l → (∀ a x, I a → P x → I (f a x)) → I (foldl f a l).
Proof.
  intros Ha Hl Hstep. revert a Ha.
  induction Hl as [|x l Hx _ IH]; intros a Ha; simpl; [done|].
  apply IH. by apply Hstep.
Qed.

Lemma foldl_related {A B} (R : A → A → Prop) (Q : A → Prop) (P : B → Prop)
    (f : A → B → A) (l : list B) (a : A) :
  (∀ a, Q a → R a a) → (∀ a b c, R a b → R b c → R a c) →
  (∀ a b, Q a → R a b → Q b) → (∀ a x, Q a → P x → R a (f a x)) →
  Q a → Forall P l → R a (foldl f a l).
Proof.
  intros Hrefl Htrans HQ Hstep Ha Hl.
  apply (foldl_invariant (λ c, Q c ∧ R a c) P); [auto|done|].
  intros c x [Hc Hac] Hx. split; [|by eauto]. eapply HQ; [exact Hc|by eauto].
Qed.

Lemma sum_list_with_alter {A} (w : A → nat) (f : A → A) (l : list A) i x :
  l !! i = Some x →
  sum_list_with w (alter f i l) + w x = sum_list_with w l + w (f x).
Proof.
  revert i. induction l as [|y l IH]; intros [|i] Hi; simplify_eq/=.
  - lia.
  - specialize (IH _ Hi). lia.
Qed.

Lemma sum_list_with_le {A} (w1 w2 : A → nat) (l : list A) :
  Forall (λ x, w1 x ≤ w2 x) l → sum_list_with w1 l ≤ sum_list_with w2 l.
Proof. induction 1; simpl; lia. Qed.

Lemma elements_one (X : gset string) v : elements X = [v] → X = {[ v ]}.
Proof.
  intros He. rewrite -(list_to_set_elements_L X) He. set_solver.
Qed.

Lemma size_list_to_set_le (l : list string) :
  size (list_to_set l : gset string) ≤ length l.
Proof.
  induction l as [|x l IH]; simpl; [done|].
  rewrite size_union_alt size_singleton.
  assert (size (list_to_set l ∖ {[x]} : gset string)
          ≤ size (list_to_set l : gset string)); [|lia].
  apply subseteq_size. set_solver.
Qed.

Section Boards.
Context `{SdkConfig}.

Lemma tile_at_lookup (b : Board) p r t :
  b !! p.1 = Some r → r !! p.2 = Some t → tile_at b p = t.
Proof. intros Hr Ht. unfold tile_at. by rewrite Hr /= Ht. Qed.

Lemma shape_lookup (b : Board) p :
  shape b → in_range p →
  ∃ r t, b !! p.1 = Some r ∧ r !! p.2 = Some t ∧ tile_at b p = t.
Proof.
  intros [Hn Hc] [Hr Hcol].
  destruct (lookup_lt_is_Some_2 b p.1) as [r Hbr]; [lia|].
  pose proof (Forall_lookup_1 _ _ _ _ Hc Hbr) as Hlen. simpl in Hlen.
  destruct (lookup_lt_is_Some_2 r p.2) as [t Hrt]; [lia|].
  exists r, t. split_and!; [done..|]. by eapply tile_at_lookup.
Qed.

Lemma tile_at_update_eq (b : Board) p f :
  shape b → in_range p → tile_at (update_tile b p f) p = f (tile_at b p).
Proof.
  intros Hs Hp. destruct (shape_lookup b p Hs Hp) as (r & t & Hr & Ht & Hat).
  rewrite Hat. unfold tile_at, update_tile.
  by rewrite list_lookup_alter_eq Hr /= list_lookup_alter_eq Ht.
Qed.

Lemma tile_at_update_ne (b : Board) p q f :
  p ≠ q → tile_at (update_tile b p f) q = tile_at b q.
Proof.
  intros Hne. unfold tile_at, update_tile.
  destruct (decide (p.1 = q.1)) as [Heq|Hrow].
  - rewrite Heq list_lookup_alter_eq.
    destruct (b !! q.1) as [r|]; simpl; [|done].
    rewrite list_lookup_alter_ne; [done|].
    intros Hc. apply Hne. destruct p, q; simpl in *; congruence.
  - by rewrite list_lookup_alter_ne.
Qed.

Lemma shape_update (b : Board) p f : shape b → shape (update_tile b p f).
Proof.
  intros [Hn Hc]. split; unfold update_tile.
  - by rewrite length_alter.
  - apply Forall_alter; [done|]. intros r Hr Hl. by rewrite length_alter.
Qed.

Lemma update_tile_forall (P : Tile → Prop) (b : Board) p f :
  Forall (Forall P) b → (P (tile_at b p) → P (f (tile_at b p))) →
  Forall (Forall P) (update_tile b p f).
Proof.
  intros Hb Hf. unfold update_tile.
  apply Forall_alter; [done|]. intros r Hr Hall.
  apply Forall_alter; [done|]. intros t Ht Hpt.
  rewrite (tile_at_lookup b p r t Hr Ht) in Hf. by apply Hf.
Qed.

Lemma update_tile_same (b : Board) p :
  update_tile b p (λ _, tile_at b p) = b.
Proof.
  unfold update_tile. apply list_eq. intros i.
  rewrite list_lookup_alter. case_decide as Hi; [|done]. subst i.
  destruct (b !! p.1) as [r|] eqn:Hr; [|done]. simpl. f_equal.
  apply list_eq. intros j.
  rewrite list_lookup_alter. case_decide as Hj; [|done]. subst j.
  destruct (r !! p.2) as [t|] eqn:Ht; [|done]. simpl.
  by rewrite (tile_at_lookup b p r t Hr Ht).
Qed.

Lemma board_forall_at (P : Tile → Prop) (b : Board) p :
  shape b → Forall (Forall P) b → in_range p → P (tile_at b p).
Proof.
  intros Hs Hb Hp. destruct (shape_lookup b p Hs Hp) as (r & t & Hr & Ht & ->).
  apply (Forall_lookup_1 _ _ _ _ (Forall_lookup_1 _ _ _ _ Hb Hr) Ht).
Qed.

Lemma board_forall_intro (P : Tile → Prop) (b : Board) :
  shape b → (∀ p, in_range p → P (tile_at b p)) → Forall (Forall P) b.
Proof.
  intros [Hn Hc] Hall. apply Forall_lookup. intros i r Hr.
  apply Forall_lookup. intros j t Ht.
  rewrite -(tile_at_lookup b (i, j) r t Hr Ht). apply Hall. split; simpl.
  - rewrite -Hn. by eapply lookup_lt_Some.
  - pose proof (Forall_lookup_1 _ _ _ _ Hc Hr) as Hl. simpl in Hl.
    rewrite -Hl. by eapply lookup_lt_Some.
Qed.

Lemma board_ext (b b' : Board) :
  shape b → shape b' →
  (∀ p, in_range p → tile_at b p = tile_at b' p) → b = b'.
Proof.
  intros Hs Hs' Heq. apply list_eq_same_length with NROWS;
    [apply Hs' | apply Hs |].
  intros i r r' Hi Hr Hr'.
  pose proof (Forall_lookup_1 _ _ _ _ (proj2 Hs) Hr) as Hl.
  pose proof (Forall_lookup_1 _ _ _ _ (proj2 Hs') Hr') as Hl'.
  simpl in *. apply list_eq_same_length with NCOLS; [done..|].
  intros j t t' Hj Ht Ht'.
  rewrite -(tile_at_lookup b (i, j) r t Hr Ht).
  rewrite -(tile_at_lookup b' (i, j) r' t' Hr' Ht').
  by apply Heq.
Qed.

Lemma board_sum_update (w : Tile → nat) (b : Board) p f :
  shape b → in_range p →
  board_sum w (update_tile b p f) + w (tile_at b p)
  = board_sum w b + w (f (tile_at b p)).
Proof.
  intros Hs Hp. destruct (shape_lookup b p Hs Hp) as (r & t & Hr & Ht & ->).
  unfold board_sum, update_tile.
  pose proof (sum_list_with_alter (sum_list_with w) (alter f p.2) b _ _ Hr).
  pose proof (sum_list_with_alter w f r _ _ Ht). lia.
Qed.

Lemma board_sum_le (w1 w2 : Tile → nat) (b : Board) :
  Forall (Forall (λ t, w1 t ≤ w2 t)) b → board_sum w1 b ≤ board_sum w2 b.
Proof.
  intros Hb. unfold board_sum. apply sum_list_with_le.
  eapply Forall_impl; [exact Hb|]. intros r Hr. by apply sum_list_with_le.
Qed.

End Boards.

(** ** Tiles *)

Section Tiles.
Context `{SdkConfig}.
Hypothesis Hunk : UNKNOWN ∉ CHOICES.

Lemma set_value_choice t v :
  v ∈ CHOICES →
  set_value t v
  = {| row := row t; col := col t; value := v; candidates := {[ v ]} |}.
Proof. intros Hv. unfold set_value. by rewrite decide_True. Qed.

Lemma set_value_other t v :
  v ∉ CHOICES →
  set_value t v
  = {| row := row t; col := col t; value := UNKNOWN;
       candidates := list_to_set CHOICES |}.
Proof. intros Hv. unfold set_value. by rewrite decide_False. Qed.

Lemma set_value_ok t v : tile_ok (set_value t v).
Proof.
  unfold set_value. case_decide as Hv; split; simpl; try split; simpl;
    auto; set_solver.
Qed.

Lemma tile_ok_unknown t :
  tile_ok t → value t = UNKNOWN → candidates t ⊆ list_to_set CHOICES.
Proof. intros [_ [_ Hu]]. exact Hu. Qed.

Lemma tile_ok_known t :
  tile_ok t → value t ≠ UNKNOWN →
  value t ∈ CHOICES ∧ candidates t = {[ value t ]}.
Proof. intros [[?|Hv] [Hk _]] Hne; [done|]. split; [done|]. by apply Hk. Qed.

Lemma with_candidates_ok t c :
  value t = UNKNOWN → c ⊆ list_to_set CHOICES →
  tile_ok (with_candidates t c).
Proof.
  intros Hu Hc. split; simpl; [by left|]. split; simpl; [|done].
  rewrite Hu. intros Hin. by destruct Hunk.
Qed.

Lemma tile_ok_size t : tile_ok t → size (candidates t) ≤ tile_cap t.
Proof.
  intros [Hv [Hk Hu]]. unfold tile_cap. case_decide as Hd.
  - etrans; [apply subseteq_size, Hu, Hd|].
    pose proof (size_list_to_set_le CHOICES). lia.
  - destruct Hv as [?|Hv]; [done|]. rewrite (Hk Hv) size_singleton. lia.
Qed.

(** What [remove_candidates] does to an UNKNOWN tile. *)
Lemma remove_candidates_unknown t used :
  tile_ok t → value t = UNKNOWN →
  let r := remove_candidates t used in
  tile_ok r.2 ∧ candidates r.2 = candidates t ∖ used ∧
  (r.1 = false → r.2 = t) ∧
  (r.1 = true → size (candidates r.2) < size (candidates t)).
Proof.
  intros Hok Hu. pose proof (tile_ok_unknown t Hok Hu) as Hsub.
  unfold remove_candidates.
  case_decide as Hd; simpl.
  { rewrite Hd. by split_and!. }
  assert (candidates t ∖ used ⊂ candidates t) as Hstrict by set_solver.
  assert (tile_ok (with_candidates t (candidates t ∖ used))) as Hwc.
  { apply with_candidates_ok; [done|set_solver]. }
  destruct (elements (candidates t ∖ used)) as [|v [|w l]] eqn:He; simpl;
    try (split_and!; [done|done|done|intros _; by apply subset_size]).
  apply elements_one in He.
  assert (v ∈ CHOICES) as Hv.
  { apply (elem_of_list_to_set (C:=gset string)). set_solver. }
  pose proof (subset_size _ _ Hstrict) as Hlt. rewrite He in Hlt.
  split_and!; [by apply set_value_ok|..]; rewrite set_value_choice //=.
Qed.

End Tiles.

(** ** Groups *)

Section Groups.
Context `{SdkConfig}.
Hypothesis HC : ConfigOK.

Lemma block_group_in_range br bc p :
  br < ROOT → bc < ROOT → p ∈ block_group br bc → in_range p.
Proof.
  intros Hbr Hbc. unfold block_group.
  rewrite list_elem_of_In in_flat_map. intros (r & Hr & Hp).
  apply in_map_iff in Hp as (c & <- & Hc).
  apply in_seq in Hr, Hc. unfold in_range.
  rewrite (nrows_square HC) (ncols_square HC). simpl. nia.
Qed.

Lemma groups_in_range g :
  g ∈ create_groups → Forall in_range g.
Proof.
  unfold create_groups. rewrite !elem_of_app. intros [Hg|[Hg|Hg]].
  - apply list_elem_of_In, in_flat_map in Hg as (br & Hbr & Hg).
    apply in_map_iff in Hg as (bc & <- & Hbc).
    apply in_seq in Hbr, Hbc. apply Forall_forall. intros p Hp.
    eapply block_group_in_range; [| |done]; lia.
  - apply list_elem_of_In, in_map_iff in Hg as (r & <- & Hr).
    apply in_seq in Hr. apply Forall_forall. intros p Hp.
    apply list_elem_of_In, in_map_iff in Hp as (c & <- & Hc).
    apply in_seq in Hc. split; simpl; lia.
  - apply list_elem_of_In, in_map_iff in Hg as (c & <- & Hc).
    apply in_seq in Hc. apply Forall_forall. intros p Hp.
    apply list_elem_of_In, in_map_iff in Hp as (r & <- & Hr).
    apply in_seq in Hr. split; simpl; lia.
Qed.

Lemma groups_all_in_range : Forall (Forall in_range) create_groups.
Proof. apply Forall_forall. intros g Hg. by apply groups_in_range. Qed.

Lemma all_pos_in_range p : p ∈ all_pos ↔ in_range p.
Proof.
  unfold all_pos, in_range. rewrite list_elem_of_In in_flat_map. split.
  - intros (r & Hr & Hp). apply in_map_iff in Hp as (c & <- & Hc).
    apply in_seq in Hr, Hc. simpl. lia.
  - intros [Hr Hc]. exists p.1. split; [apply in_seq; lia|].
    apply in_map_iff. exists p.2. split; [by destruct p|apply in_seq; lia].
Qed.

End Groups.

(** ** Narrowing *)

Section Narrowing.
Context `{SdkConfig}.
Hypothesis HC : ConfigOK.

Let Hunk : UNKNOWN ∉ CHOICES := unknown_not_choice HC.

Lemma update_tile_const (b : Board) p f :
  update_tile b p f = update_tile b p (λ _, f (tile_at b p)).
Proof.
  unfold update_tile. apply list_alter_ext; [|done]. intros r Hr.
  apply list_alter_ext; [|done]. intros t Ht.
  by rewrite (tile_at_lookup b p r t Hr Ht).
Qed.

Lemma board_ok_at b p : board_ok b → in_range p → tile_ok (tile_at b p).
Proof. intros [Hs Hb] Hp. by apply board_forall_at. Qed.

Lemma board_ok_update b p f :
  board_ok b → tile_ok (f (tile_at b p)) → board_ok (update_tile b p f).
Proof.
  intros [Hs Hb] Hf. split; [by apply shape_update|].
  by apply update_tile_forall.
Qed.

Lemma cand_sum_le_cap b : board_ok b → cand_sum b ≤ cap b.
Proof.
  intros [_ Hb]. apply board_sum_le.
  eapply Forall_impl; [exact Hb|]. intros r Hr.
  eapply Forall_impl; [exact Hr|]. intros t Ht. by apply tile_ok_size.
Qed.

Lemma narrows_refl b : board_ok b → narrows b b.
Proof. intros Hb. by split_and!. Qed.

Lemma narrows_trans b1 b2 b3 :
  narrows b1 b2 → narrows b2 b3 → narrows b1 b3.
Proof.
  intros (Hok2 & Hc2 & Hp2 & Hk2) (Hok3 & Hc3 & Hp3 & Hk3).
  split_and!; [done|lia|lia|].
  intros p Hp Hne. pose proof (Hk2 p Hp Hne) as E2.
  rewrite -E2. apply Hk3; [done|]. by rewrite E2.
Qed.

Lemma narrows_step b p t' :
  board_ok b → in_range p → tile_ok t' →
  candidates t' ⊆ candidates (tile_at b p) →
  (value (tile_at b p) ≠ UNKNOWN → t' = tile_at b p) →
  narrows b (update_tile b p (λ _, t')).
Proof.
  intros Hb Hp Hok Hsub Hkeep. pose proof Hb as [Hs _].
  split_and!.
  - by apply board_ok_update.
  - pose proof (board_sum_update (λ t, size (candidates t)) b p (λ _, t')
                  Hs Hp) as Hsum. simpl in Hsum.
    pose proof (subseteq_size _ _ Hsub). unfold cand_sum. lia.
  - pose proof (board_sum_update tile_cap b p (λ _, t') Hs Hp) as Hsum.
    simpl in Hsum.
    assert (tile_cap t' ≤ tile_cap (tile_at b p)); [|unfold cap; lia].
    destruct (decide (value (tile_at b p) = UNKNOWN)) as [Hu|Hk].
    + unfold tile_cap. rewrite (decide_True _ _ Hu). case_decide; lia.
    + by rewrite (Hkeep Hk).
  - intros q Hq Hk. destruct (decide (p = q)) as [->|Hne].
    + rewrite tile_at_update_eq //. by apply Hkeep.
    + by rewrite tile_at_update_ne.
Qed.

Lemma cand_sum_update_lt b p t' :
  shape b → in_range p →
  size (candidates t') < size (candidates (tile_at b p)) →
  cand_sum (update_tile b p (λ _, t')) < cand_sum b.
Proof.
  intros Hs Hp Hlt.
  pose proof (board_sum_update (λ t, size (candidates t)) b p (λ _, t')
                Hs Hp) as Hsum. simpl in Hsum. unfold cand_sum. lia.
Qed.

End Narrowing.

(** ** Propagation narrows the board *)

Section Propagation.
Context `{SdkConfig} `{SetOrder}.
Hypothesis HC : ConfigOK.
Hypothesis HO : SetOrderOK.

Let Hunk : UNKNOWN ∉ CHOICES := unknown_not_choice HC.

Lemma advances_refl st : board_ok st.2 → advances st st.
Proof. intros Hb. split_and!; [by apply narrows_refl|done|by left]. Qed.

Lemma advances_trans st1 st2 st3 :
  advances st1 st2 → advances st2 st3 → advances st1 st3.
Proof.
  intros (Hn12 & Hf12 & Hs12) (Hn23 & Hf23 & Hs23).
  split_and!; [by eapply narrows_trans|by auto|].
  intros H3. destruct Hn12 as (_ & Hc12 & _), Hn23 as (_ & Hc23 & _).
  destruct (Hs23 H3) as [H2|Hlt].
  - destruct (Hs12 H2) as [?|?]; [by left|right; lia].
  - right; lia.
Qed.

Lemma advances_ok st st' : board_ok st.2 → advances st st' → board_ok st'.2.
Proof. by intros _ [[? _] _]. Qed.

Lemma naked_step_advances used st p :
  board_ok st.2 → in_range p → advances st (naked_step used st p).
Proof.
  intros Hb Hp. unfold naked_step. case_decide as Hu;
    [|by apply advances_refl].
  pose proof (board_ok_at _ _ Hb Hp) as Hok.
  destruct (remove_candidates_unknown Hunk _ used Hok Hu)
    as (Hok' & Hc & Hsame & Hless).
  destruct Hb as [Hs Hall].
  split_and!; simpl.
  - apply narrows_step; [by split|done|done| |done].
    rewrite Hc. set_solver.
  - intros ->. by destruct (remove_candidates _ _).1.
  - destruct (remove_candidates _ _).1 eqn:Hr; [|by left].
    intros _. right. apply cand_sum_update_lt; auto.
Qed.

Lemma naked_group_advances st g :
  board_ok st.2 → Forall in_range g → advances st (naked_group st g).
Proof.
  intros Hb Hg. unfold naked_group.
  apply (foldl_related advances (λ a, board_ok a.2) in_range);
    eauto using advances_refl, advances_trans, advances_ok,
                naked_step_advances.
Qed.

Lemma naked_single_advances b :
  board_ok b → advances (false, b) (naked_single b).
Proof.
  intros Hb. unfold naked_single.
  apply (foldl_related advances (λ a, board_ok a.2) (Forall in_range));
    eauto using advances_refl, advances_trans, advances_ok,
                naked_group_advances, groups_all_in_range.
Qed.

Lemma leftovers_choices b g v : v ∈ leftovers b g → v ∈ CHOICES.
Proof.
  unfold leftovers. intros Hv.
  apply (elem_of_list_to_set (C:=gset string)). revert Hv.
  generalize (list_to_set CHOICES : gset string). intros X. revert X.
  induction g as [|p g IH]; intros X; simpl; [done|].
  intros Hv. apply IH in Hv. case_decide; set_solver.
Qed.

Lemma set_iter_elem (s : gset string) v : v ∈ set_iter s ↔ v ∈ s.
Proof. by rewrite (HO s) elem_of_elements. Qed.

Lemma set_value_known_same t v :
  tile_ok t → value t ≠ UNKNOWN → v ∈ candidates t → set_value t v = t.
Proof.
  intros Hok Hk Hv. destruct (tile_ok_known t Hok Hk) as [Hin Hc].
  rewrite Hc in Hv. apply elem_of_singleton in Hv as ->.
  rewrite set_value_choice //. destruct t; simpl in *. by rewrite Hc.
Qed.

Lemma hidden_step_narrows g st v :
  board_ok st.2 → Forall in_range g → v ∈ CHOICES →
  narrows st.2 (hidden_step g st v).2.
Proof.
  intros Hb Hg Hv. unfold hidden_step.
  destruct (filter _ g) as [|p [|q l]] eqn:Hf;
    try by apply narrows_refl.
  assert (p ∈ filter (λ p, v ∈ candidates (tile_at st.2 p)) g) as Hp
    by (rewrite Hf; set_solver).
  apply list_elem_of_filter in Hp as [Hadm Hpg].
  assert (in_range p) as Hr by (by eapply Forall_forall in Hg).
  pose proof (board_ok_at _ _ Hb Hr) as Hok.
  simpl. rewrite update_tile_const. apply narrows_step; try done.
  - by apply set_value_ok.
  - rewrite set_value_choice //=. set_solver.
  - intros Hk. by apply set_value_known_same.
Qed.

Lemma hidden_group_narrows st g :
  board_ok st.2 → Forall in_range g → narrows st.2 (hidden_group st g).2.
Proof.
  intros Hb Hg. unfold hidden_group.
  apply (foldl_related (λ a c, narrows a.2 c.2) (λ a, board_ok a.2)
           (λ v, v ∈ CHOICES)).
  - intros a Ha. by apply narrows_refl.
  - intros a b c. apply narrows_trans.
  - by intros a b _ [? _].
  - intros a v Ha Hv. by apply hidden_step_narrows.
  - done.
  - apply Forall_forall. intros v Hv. apply set_iter_elem in Hv.
    by eapply leftovers_choices.
Qed.

Lemma hidden_single_narrows b :
  board_ok b → narrows b (hidden_single b).2.
Proof.
  intros Hb. unfold hidden_single.
  apply (foldl_related (λ a c, narrows a.2 c.2) (λ a, board_ok a.2)
           (Forall in_range) hidden_group create_groups (false, b)).
  - intros a Ha. by apply narrows_refl.
  - intros a b' c. apply narrows_trans.
  - by intros a b' _ [? _].
  - intros a g Ha Hg. by apply hidden_group_narrows.
  - done.
  - by apply groups_all_in_range.
Qed.

(** One round of the [while] loop of [propagate]. *)
Lemma round_narrows b :
  board_ok b →
  let n := naked_single b in
  let h := hidden_single n.2 in
  narrows b h.2 ∧ (n.1 = true → cand_sum h.2 < cand_sum b).
Proof.
  intros Hb. simpl.
  destruct (naked_single_advances b Hb) as (Hn & _ & Hlt). simpl in *.
  pose proof Hn as [Hok _].
  pose proof (hidden_single_narrows _ Hok) as Hh.
  split; [by eapply narrows_trans|].
  intros Ht. destruct (Hlt Ht) as [?|Hl]; [done|].
  destruct Hh as (_ & Hle & _). lia.
Qed.

Lemma propagate_narrows fuel b b' :
  board_ok b → propagate fuel b = Some b' → narrows b b'.
Proof.
  revert b. induction fuel as [|fuel IH]; intros b Hb; simpl; [done|].
  destruct (round_narrows b Hb) as [Hn Hlt].
  destruct (naked_single b).1.
  - intros Hp. eapply narrows_trans; [exact Hn|].
    apply IH; [by destruct Hn|done].
  - by intros [= <-].
Qed.

(** The [while] loop ends: every round but the last crosses off a
    candidate. *)
Lemma propagate_terminates fuel b :
  board_ok b → cand_sum b < fuel → ∃ b', propagate fuel b = Some b'.
Proof.
  revert b. induction fuel as [|fuel IH]; intros b Hb Hlt; [lia|]. simpl.
  destruct (round_narrows b Hb) as [Hn Hless].
  destruct (naked_single b).1; [|by eexists].
  apply IH; [by destruct Hn|]. specialize (Hless eq_refl). lia.
Qed.

Lemma propagate_fuel_mono fuel fuel' b b' :
  propagate fuel b = Some b' → fuel ≤ fuel' → propagate fuel' b = Some b'.
Proof.
  revert fuel' b. induction fuel as [|fuel IH]; intros [|fuel'] b; simpl;
    try done; [lia|].
  destruct (naked_single b).1; [|done].
  intros Hp Hle. apply IH; [done|lia].
Qed.

End Propagation.

(** ** Rounds in which hidden_single finds nothing *)

Section Idle.
Context `{SdkConfig} `{SetOrder}.
Hypothesis HO : SetOrderOK.

Lemma hidden_step_idle g st v :
  length (filter (λ p, v ∈ candidates (tile_at st.2 p)) g) ≠ 1 →
  hidden_step g st v = st.
Proof.
  unfold hidden_step. by destruct (filter _ g) as [|p [|q l]].
Qed.

Lemma hidden_single_idle (b : Board) :
  hidden_idle b = true → hidden_single b = (false, b).
Proof.
  unfold hidden_idle, hidden_single. intros Hidle.
  rewrite forallb_forall in Hidle.
  apply (foldl_invariant (λ st, st = (false, b)) (λ g, g ∈ create_groups));
    [done|by apply Forall_forall|].
  intros st g -> Hg. apply list_elem_of_In, Hidle in Hg.
  rewrite forallb_forall in Hg. unfold hidden_group. simpl.
  apply (foldl_invariant (λ st, st = (false, b))
           (λ v, v ∈ elements (leftovers b g))); [done| |].
  - apply Forall_forall. intros v Hv. by rewrite -(HO (leftovers b g)).
  - intros st v -> Hv. apply hidden_step_idle. simpl.
    apply list_elem_of_In, Hg, negb_true_iff, bool_decide_eq_false in Hv.
    done.
Qed.

Lemma propagate_idle_sound fuel (b b' : Board) :
  propagate_idle fuel b = Some b' → propagate fuel b = Some b'.
Proof.
  revert b. induction fuel as [|fuel IH]; intros b; simpl; [done|].
  destruct (hidden_idle _) eqn:Hidle; [|done].
  rewrite (hidden_single_idle _ Hidle) /=.
  destruct (naked_single b).1; [apply IH|done].
Qed.

End Idle.

(** ** Loading and saving *)

Section Snapshots.
Context `{SdkConfig}.
Hypothesis HC : ConfigOK.

Let Hunk : UNKNOWN ∉ CHOICES := unknown_not_choice HC.

(** The loops of [set_tiles], stopped at row [m], column [n]. *)
Lemma set_tiles_cols tile_values (b b0 : Board) m n :
  m < NROWS → n ≤ NCOLS →
  (∀ p, in_range p → is_Some (sym_at tile_values p)) →
  shape b ∧ (∀ p, in_range p →
     tile_at b p = if decide (written m 0 p)
                   then set_value (tile_at b0 p) (default "" (sym_at tile_values p))
                   else tile_at b0 p) →
  ∃ b', foldl (λ ob col_num,
            b ← ob;
            v ← tile_values !! m ≫= (.!! col_num);
            Some (update_tile b (m, col_num) (λ t, set_value t v)))
          (Some b) (seq 0 n) = Some b' ∧
        shape b' ∧ (∀ p, in_range p →
     tile_at b' p = if decide (written m n p)
                    then set_value (tile_at b0 p) (default "" (sym_at tile_values p))
                    else tile_at b0 p).
Proof.
  intros Hm Hn Htv [Hs Hb]. induction n as [|n IH].
  { exists b. by split_and!. }
  destruct IH as (b1 & Hfold & Hs1 & Hb1); [lia|].
  rewrite seq_S foldl_app Hfold /=.
  destruct (Htv (m, n)) as [v Hv]; [split; simpl; lia|].
  unfold sym_at in Hv. simpl in Hv. rewrite Hv /=.
  eexists. split_and!; [done|by apply shape_update|].
  intros p Hp. destruct (decide ((m, n) = p)) as [<-|Hne].
  - rewrite tile_at_update_eq // Hb1 //.
    rewrite decide_False; [|unfold written; simpl; lia].
    rewrite decide_True; [|unfold written; simpl; lia].
    unfold sym_at. simpl. by rewrite Hv.
  - rewrite tile_at_update_ne // Hb1 //.
    assert (written m (S n) p ↔ written m n p) as Hw.
    { unfold written. destruct p as [r c]; simpl.
      assert (¬ (r = m ∧ c = n)) by (intros [-> ->]; done). lia. }
    destruct (decide (written m n p)), (decide (written m (S n) p)); tauto.
Qed.

Lemma set_tiles_rows tile_values (b0 : Board) m :
  m ≤ NROWS → shape b0 →
  (∀ p, in_range p → is_Some (sym_at tile_values p)) →
  ∃ b', foldl (λ ob row_num,
          foldl (λ ob col_num,
            b ← ob;
            v ← tile_values !! row_num ≫= (.!! col_num);
            Some (update_tile b (row_num, col_num) (λ t, set_value t v)))
            ob (seq 0 NCOLS))
          (Some b0) (seq 0 m) = Some b' ∧
        shape b' ∧ (∀ p, in_range p →
     tile_at b' p = if decide (written m 0 p)
                    then set_value (tile_at b0 p) (default "" (sym_at tile_values p))
                    else tile_at b0 p).
Proof.
  intros Hm Hs Htv. induction m as [|m IH].
  { exists b0. split_and!; [done..|]. intros p Hp.
    rewrite decide_False //. unfold written. lia. }
  destruct IH as (b1 & Hfold & Hs1 & Hb1); [lia|].
  rewrite seq_S foldl_app Hfold /=.
  destruct (set_tiles_cols tile_values b1 b0 m NCOLS) as (b2 & Hc & Hs2 & Hb2);
    [lia|lia|done|by split|].
  exists b2. split_and!; [done..|]. intros p Hp. rewrite Hb2 //.
  assert (written m NCOLS p ↔ written (S m) 0 p) as Hw.
  { unfold written. destruct Hp. lia. }
  destruct (decide (written m NCOLS p)), (decide (written (S m) 0 p)); tauto.
Qed.

(** [set_tiles] on an input of the right shape writes every tile. *)
Lemma set_tiles_spec (b : Board) tile_values :
  shape b → (∀ p, in_range p → is_Some (sym_at tile_values p)) →
  ∃ b', set_tiles b tile_values = Some b' ∧ shape b' ∧
        ∀ p v, in_range p → sym_at tile_values p = Some v →
               tile_at b' p = set_value (tile_at b p) v.
Proof.
  intros Hs Htv.
  destruct (set_tiles_rows tile_values b NROWS) as (b' & Hf & Hs' & Hb');
    [done..|].
  exists b'. split_and!; [done..|]. intros p v Hp Hv.
  rewrite Hb' // decide_True; [|left; apply Hp]. by rewrite Hv.
Qed.

Lemma one_char_string s : String.length s = 1 → ∃ c, s = String c "".
Proof. destruct s as [|c [|d s]]; simpl; intros; try done. by exists c. Qed.

Lemma str_items_concat (l : list string) :
  Forall (λ s, String.length s = 1) l → str_items (String.concat "" l) = l.
Proof.
  induction 1 as [|x l Hx Hl IH]; [done|].
  destruct (one_char_string x Hx) as [c ->].
  destruct l as [|y l]; [done|].
  change (str_items (String.concat "" (String c "" :: y :: l)))
    with (String c "" :: str_items (String.concat "" (y :: l))).
  by rewrite IH.
Qed.

Lemma tile_value_one_char t : tile_ok t → String.length (value t) = 1.
Proof.
  intros [[->|Hv] _]; [apply (unknown_one_char HC)|].
  pose proof (choices_one_char HC) as Hall.
  rewrite Forall_forall in Hall. by apply Hall.
Qed.

Lemma value_set_value t v :
  v = UNKNOWN ∨ v ∈ CHOICES → value (set_value t v) = v.
Proof.
  intros [->|Hv]; [by rewrite set_value_other|by rewrite set_value_choice].
Qed.

(** Reading the snapshot back gives the values of the tiles. *)
Lemma sym_at_as_list b p :
  board_ok b → in_range p →
  sym_at (map str_items (as_list b)) p = Some (value (tile_at b p)).
Proof.
  intros [Hs Hb] Hp.
  destruct (shape_lookup b p Hs Hp) as (r & t & Hr & Ht & ->).
  unfold sym_at, as_list. rewrite !list_lookup_fmap Hr /=.
  rewrite str_items_concat.
  - by rewrite list_lookup_fmap Ht.
  - apply Forall_fmap. eapply Forall_impl;
      [exact (Forall_lookup_1 _ _ _ _ Hb Hr)|].
    intros t' Ht'. by apply tile_value_one_char.
Qed.

Lemma board_forall2_intro (R : Tile → Tile → Prop) (b b' : Board) :
  shape b → shape b' →
  (∀ p, in_range p → R (tile_at b p) (tile_at b' p)) →
  Forall2 (Forall2 R) b b'.
Proof.
  intros [Hn Hc] [Hn' Hc'] HR.
  apply Forall2_same_length_lookup_2; [congruence|].
  intros i r r' Hr Hr'.
  pose proof (Forall_lookup_1 _ _ _ _ Hc Hr) as Hl.
  pose proof (Forall_lookup_1 _ _ _ _ Hc' Hr') as Hl'. simpl in *.
  apply Forall2_same_length_lookup_2; [congruence|].
  intros j t t' Ht Ht'.
  rewrite -(tile_at_lookup b (i, j) r t Hr Ht).
  rewrite -(tile_at_lookup b' (i, j) r' t' Hr' Ht').
  apply HR. split; simpl.
  - rewrite -Hn. by eapply lookup_lt_Some.
  - rewrite -Hl. by eapply lookup_lt_Some.
Qed.

Lemma as_list_same_values b b' :
  shape b → shape b' → same_values b b' → as_list b = as_list b'.
Proof.
  intros Hs Hs' Hv.
  pose proof (board_forall2_intro (λ t t', value t = value t') b b'
                Hs Hs' Hv) as HF.
  clear Hs Hs' Hv.
  unfold as_list. induction HF as [|r r' l l' Hr _ IH]; [done|].
  simpl. f_equal; [|done]. f_equal.
  induction Hr as [|t t' k k' Ht _ IHk]; [done|]. simpl. by f_equal.
Qed.

Lemma board_sum_same (w : Tile → nat) b b' :
  shape b → shape b' →
  (∀ p, in_range p → w (tile_at b p) = w (tile_at b' p)) →
  board_sum w b = board_sum w b'.
Proof.
  intros Hs Hs' Hw.
  pose proof (board_forall2_intro (λ t t', w t = w t') b b' Hs Hs' Hw) as HF.
  clear Hs Hs' Hw.
  unfold board_sum. induction HF as [|r r' l l' Hr _ IH]; [done|].
  simpl. f_equal; [|done].
  induction Hr as [|t t' k k' Ht _ IHk]; [done|]. simpl. by f_equal.
Qed.

Lemma cap_same_values b b' :
  shape b → shape b' → same_values b b' → cap b = cap b'.
Proof.
  intros Hs Hs' Hv. apply board_sum_same; [done..|].
  intros p Hp. unfold tile_cap. by rewrite (Hv p Hp).
Qed.

(** Restoring the snapshot of [b1] onto any board of the right shape. *)
Lemma restore_spec (b b1 : Board) :
  shape b → board_ok b1 →
  ∃ b', set_tiles b (map str_items (as_list b1)) = Some b' ∧
        board_ok b' ∧ same_values b' b1 ∧
        ∀ p, in_range p →
             tile_at b' p = set_value (tile_at b p) (value (tile_at b1 p)).
Proof.
  intros Hs Hb1.
  destruct (set_tiles_spec b (map str_items (as_list b1))) as (b' & Hset & Hs' & Hb');
    [done| |].
  { intros p Hp. rewrite sym_at_as_list //. }
  assert (∀ p, in_range p →
            tile_at b' p = set_value (tile_at b p) (value (tile_at b1 p)))
    as Hat.
  { intros p Hp. apply Hb'; [done|]. by apply sym_at_as_list. }
  exists b'. split_and!; [done| | |done].
  - split; [done|]. apply board_forall_intro; [done|].
    intros p Hp. rewrite Hat //. by apply set_value_ok.
  - intros p Hp. rewrite Hat //. apply value_set_value.
    by destruct (board_ok_at _ _ Hb1 Hp) as [? _].
Qed.

End Snapshots.

(** ** Choosing the tile to guess *)

Section Choice.
Context `{SdkConfig}.

Lemma min_fold_spec (b : Board) (l : list pos) :
  match foldl (min_step b) None l with
  | None => Forall (λ q, value (tile_at b q) ≠ UNKNOWN) l
  | Some (n, p) =>
      ∃ l1 l2, l = l1 ++ p :: l2 ∧ value (tile_at b p) = UNKNOWN ∧
        n = size (candidates (tile_at b p)) ∧
        Forall (λ q, value (tile_at b q) = UNKNOWN →
                     n < size (candidates (tile_at b q))) l1 ∧
        Forall (λ q, value (tile_at b q) = UNKNOWN →
                     n ≤ size (candidates (tile_at b q))) l2
  end.
Proof.
  induction l as [|x l IH] using rev_ind; [by constructor|].
  rewrite foldl_app /=.
  destruct (foldl (min_step b) None l) as [[n p]|]; unfold min_step.
  - destruct IH as (l1 & l2 & -> & Hu & Hn & H1 & H2).
    case_decide as Hx.
    + case_decide as Hlt.
      * exists (l1 ++ p :: l2), []. split_and!; [done..| |by constructor].
        rewrite Forall_app Forall_cons. split_and!.
        -- eapply Forall_impl; [exact H1|]. intros q Hq Hqu.
           specialize (Hq Hqu). simpl in *. lia.
        -- intros _. lia.
        -- eapply Forall_impl; [exact H2|]. intros q Hq Hqu.
           specialize (Hq Hqu). simpl in *. lia.
      * exists l1, (l2 ++ [x]). split_and!; [by rewrite -app_assoc|done..|].
        rewrite Forall_app Forall_singleton. split; [done|]. intros _. lia.
    + exists l1, (l2 ++ [x]). split_and!; [by rewrite -app_assoc|done..|].
      rewrite Forall_app Forall_singleton. split; [done|]. by intros ?.
  - case_decide as Hx.
    + exists l, []. split_and!; [done..| |by constructor].
      eapply Forall_impl; [exact IH|]. by intros q Hq Hqu.
    + rewrite Forall_app Forall_singleton. by split.
Qed.

Lemma is_complete_spec (b : Board) :
  is_complete b = true ↔
  Forall (λ q, value (tile_at b q) ≠ UNKNOWN) (concat create_groups).
Proof.
  unfold is_complete. induction create_groups as [|g gs IH]; simpl.
  { split; [by constructor|done]. }
  rewrite andb_true_iff IH Forall_app. apply and_iff_compat_r.
  induction g as [|p g IHg]; simpl; [split; [by constructor|done]|].
  rewrite andb_true_iff IHg Forall_cons bool_decide_eq_true. done.
Qed.

Lemma min_choice_none (b : Board) :
  min_choice_tile b = None ↔ is_complete b = true.
Proof.
  rewrite is_complete_spec. unfold min_choice_tile.
  pose proof (min_fold_spec b (concat create_groups)) as Hm.
  destruct (foldl _ _ _) as [[n p]|]; simpl; [|done].
  split; [done|]. intros Hall.
  destruct Hm as (l1 & l2 & Hl & Hu & _). rewrite Hl in Hall.
  apply Forall_app in Hall as [_ Hall]. by apply Forall_cons in Hall as [? _].
Qed.

End Choice.

(** ** Search *)

Section Search.
Context `{SdkConfig} `{SetOrder}.
Hypothesis HC : ConfigOK.
Hypothesis HO : SetOrderOK.

Let Hunk : UNKNOWN ∉ CHOICES := unknown_not_choice HC.

Lemma min_choice_some (b : Board) :
  is_complete b = false →
  ∃ p, min_choice_tile b = Some p ∧ in_range p ∧
       value (tile_at b p) = UNKNOWN.
Proof.
  intros Hc. pose proof (min_choice_none b) as Hnone.
  unfold min_choice_tile in *.
  pose proof (min_fold_spec b (concat create_groups)) as Hm.
  destruct (foldl _ _ _) as [[n p]|]; simpl in *.
  - destruct Hm as (l1 & l2 & Hl & Hu & _). exists p. split_and!; [done| |done].
    assert (p ∈ concat create_groups) as Hp by (rewrite Hl; set_solver).
    apply list_elem_of_In, in_concat in Hp as (g & Hg & Hp).
    apply list_elem_of_In in Hg, Hp.
    pose proof (groups_in_range HC g Hg) as Hr.
    rewrite Forall_forall in Hr. by apply Hr.
  - rewrite (proj1 Hnone eq_refl) in Hc. done.
Qed.

(** What the recursive call of [solve] is assumed to guarantee. *)
Lemma try_values_spec rec saved p vals b b1 r :
  (∀ b r, board_ok b → rec b = Some r →
          board_ok r.2 ∧ (r.1 = true → is_complete r.2 = true)) →
  board_ok b1 → saved = as_list b1 → in_range p →
  board_ok b → same_values b b1 →
  try_values rec saved p vals b = Some r →
  board_ok r.2 ∧ (r.1 = true → is_complete r.2 = true) ∧
  (r.1 = false → same_values r.2 b1).
Proof.
  intros Hrec Hb1 -> Hp. revert b.
  induction vals as [|v vals IH]; intros b Hb Hsame; simpl.
  { intros [= <-]. by split_and!. }
  destruct (rec _) as [[[] bf]|] eqn:Hr; [| |done].
  - intros [= <-]. apply Hrec in Hr as [? ?]; [done|].
    apply board_ok_update; [done|]. by apply set_value_ok.
  - apply Hrec in Hr as [[Hsf _] _];
      [|apply board_ok_update; [done|]; by apply set_value_ok].
    destruct (restore_spec HC bf b1 Hsf Hb1) as (b' & -> & Hb' & Hv' & _).
    simpl. by apply IH.
Qed.

Lemma solve_spec fuel b r :
  board_ok b → solve fuel b = Some r →
  board_ok r.2 ∧ (r.1 = true → is_complete r.2 = true) ∧
  (r.1 = false → ∃ b1, propagate fuel b = Some b1 ∧ same_values r.2 b1).
Proof.
  revert b r. induction fuel as [|fuel IH]; intros b r Hb; [done|].
  cbn [solve].
  destruct (propagate (S fuel) b) as [b1|] eqn:Hprop; [|done]. simpl.
  pose proof (propagate_narrows HC HO _ _ _ Hb Hprop) as [Hb1 _].
  destruct (is_complete b1) eqn:Hc.
  { intros [= <-]. split_and!; [done..|]. done. }
  destruct (is_consistent b1); simpl.
  2:{ intros [= <-]. split_and!; [done|done|]. intros _. by exists b1. }
  destruct (min_choice_some b1 Hc) as (p & -> & Hp & Hu). simpl.
  intros Htry.
  eapply try_values_spec in Htry as (Hok & Htrue & Hfalse); try done.
  - split_and!; [done..|]. intros Hf. exists b1. split; [done|by apply Hfalse].
  - intros b' r' Hb' Hs. by destruct (IH b' r' Hb' Hs) as (? & ? & _).
Qed.

Lemma cap_guess (b : Board) p v :
  board_ok b → in_range p → value (tile_at b p) = UNKNOWN → v ∈ CHOICES →
  cap (update_tile b p (λ t, set_value t v)) < cap b.
Proof.
  intros [Hs _] Hp Hu Hv.
  pose proof (board_sum_update tile_cap b p (λ t, set_value t v) Hs Hp)
    as Hsum.
  assert (tile_cap (tile_at b p) = S (length CHOICES)) as Hold.
  { unfold tile_cap. by rewrite decide_True. }
  assert (tile_cap (set_value (tile_at b p) v) = 1) as Hnew.
  { rewrite set_value_choice //. unfold tile_cap. simpl.
    rewrite decide_False //. by intros ->. }
  apply list_elem_of_lookup in Hv as [i Hi]. apply lookup_lt_Some in Hi.
  unfold cap. lia.
Qed.

Lemma try_values_terminates rec saved p vals b b1 :
  (∀ b r, board_ok b → rec b = Some r →
          board_ok r.2 ∧ (r.1 = true → is_complete r.2 = true)) →
  (∀ b, board_ok b → cap b < cap b1 → ∃ r, rec b = Some r) →
  board_ok b1 → saved = as_list b1 → in_range p →
  value (tile_at b1 p) = UNKNOWN → Forall (λ v, v ∈ CHOICES) vals →
  board_ok b → same_values b b1 →
  ∃ r, try_values rec saved p vals b = Some r.
Proof.
  intros Hrec Hterm Hb1 -> Hp Hu Hvals. revert b.
  induction Hvals as [|v vals Hv _ IH]; intros b Hb Hsame; simpl;
    [by eexists|].
  assert (board_ok (update_tile b p (λ t, set_value t v))) as Hg.
  { apply board_ok_update; [done|]. by apply set_value_ok. }
  destruct (Hterm _ Hg) as [[[] bf] Hr].
  { assert (cap b = cap b1) as <-.
    { apply cap_same_values; [apply Hb|apply Hb1|done]. }
    apply cap_guess; [done|done| |done]. by rewrite (Hsame p Hp). }
  - rewrite Hr. by eexists.
  - rewrite Hr. apply Hrec in Hr as [[Hsf _] _]; [|done].
    destruct (restore_spec HC bf b1 Hsf Hb1) as (b' & -> & Hb' & Hv' & _).
    simpl. by apply IH.
Qed.

Lemma set_iter_choices (b : Board) p :
  board_ok b → in_range p → value (tile_at b p) = UNKNOWN →
  Forall (λ v, v ∈ CHOICES) (set_iter (candidates (tile_at b p))).
Proof.
  intros Hb Hp Hu. apply Forall_forall. intros v Hv.
  apply (set_iter_elem HO) in Hv.
  pose proof (tile_ok_unknown _ (board_ok_at _ _ Hb Hp) Hu) as Hsub.
  apply (elem_of_list_to_set (C:=gset string)). set_solver.
Qed.

(** [solve] returns, given fuel above the capacity of the board. *)
Lemma solve_terminates fuel b :
  board_ok b → cap b < fuel → ∃ r, solve fuel b = Some r.
Proof.
  revert b. induction fuel as [|fuel IH]; intros b Hb Hlt; [lia|].
  cbn [solve].
  destruct (propagate_terminates HC HO (S fuel) b Hb) as [b1 Hprop].
  { pose proof (cand_sum_le_cap b Hb). lia. }
  rewrite Hprop /=.
  pose proof (propagate_narrows HC HO _ _ _ Hb Hprop) as (Hb1 & _ & Hcap & _).
  destruct (is_complete b1) eqn:Hc; [by eexists|].
  destruct (is_consistent b1); simpl; [|by eexists].
  destruct (min_choice_some b1 Hc) as (p & -> & Hp & Hu). simpl.
  eapply try_values_terminates; try done.
  - intros b' r' Hb' Hs. by destruct (solve_spec _ _ _ Hb' Hs) as (? & ? & _).
  - intros b' Hb' Hlt'. apply IH; [done|lia].
  - by apply set_iter_choices.
Qed.

Lemma try_values_mono (rec rec' : Board → option (bool * Board))
    saved p vals b r :
  (∀ b r, rec b = Some r → rec' b = Some r) →
  try_values rec saved p vals b = Some r →
  try_values rec' saved p vals b = Some r.
Proof.
  intros Hrec. revert b. induction vals as [|v vals IH]; intros b; simpl;
    [done|].
  destruct (rec _) as [[[] bf]|] eqn:Hr; [| |done];
    rewrite (Hrec _ _ Hr); [done|].
  destruct (set_tiles _ _); simpl; [|done]. apply IH.
Qed.

(** More fuel does not change the result. *)
Lemma solve_fuel_mono fuel fuel' b r :
  solve fuel b = Some r → fuel ≤ fuel' → solve fuel' b = Some r.
Proof.
  revert fuel' b r. induction fuel as [|fuel IH]; intros [|fuel'] b r;
    try done; [lia|].
  cbn [solve]. intros Hs Hle.
  destruct (propagate (S fuel) b) as [b1|] eqn:Hprop; [|done].
  rewrite (propagate_fuel_mono _ (S fuel') _ _ Hprop); [|lia].
  simpl in *. destruct (is_complete b1); [done|].
  destruct (is_consistent b1); simpl in *; [|done].
  destruct (min_choice_tile b1); simpl in *; [|done].
  eapply try_values_mono; [|done]. intros b' r' Hr. apply IH; [done|lia].
Qed.

End Search.

(** ** Boards that have a completion *)

Section Completion.
Context `{SdkConfig} `{SetOrder}.
Hypothesis HC : ConfigOK.
Hypothesis HO : SetOrderOK.
Variable sol : pos → string.
Hypothesis Hsol : latin sol.

Let Hunk : UNKNOWN ∉ CHOICES := unknown_not_choice HC.

Lemma occurrences_cons s x l :
  occurrences s (x :: l)
  = (if decide (x = s) then 1 else 0) + occurrences s l.
Proof. unfold occurrences. rewrite filter_cons. by case_decide. Qed.

Lemma occurrences_elem s l : 0 < occurrences s l ↔ s ∈ l.
Proof.
  induction l as [|x l IH].
  { unfold occurrences. simpl. split; [lia|]. by intros ?%not_elem_of_nil. }
  rewrite occurrences_cons elem_of_cons -IH. case_decide as Hx.
  - subst. split; [by left|lia].
  - split; [intros; right; lia|]. intros [->|?]; [done|lia].
Qed.

Lemma occurrences_two {A} (f : A → string) (g : list A) x y :
  x ∈ g → y ∈ g → x ≠ y → f x = f y → 2 ≤ occurrences (f x) (f <$> g).
Proof.
  intros Hx Hy Hne Hf. induction g as [|z g IH]; [set_solver|].
  rewrite fmap_cons occurrences_cons.
  apply elem_of_cons in Hx as [->|Hx], Hy as [->|Hy]; try done.
  - rewrite decide_True //.
    assert (0 < occurrences (f z) (f <$> g)); [|lia].
    apply occurrences_elem. rewrite Hf. by apply list_elem_of_fmap_2.
  - rewrite decide_True //.
    assert (0 < occurrences (f x) (f <$> g)); [|lia].
    apply occurrences_elem. by apply list_elem_of_fmap_2.
  - specialize (IH Hx Hy). lia.
Qed.

Lemma latin_symbol p : in_range p → sol p ∈ CHOICES.
Proof.
  intros Hp. destruct Hsol as [Hall _]. rewrite Forall_forall in Hall.
  by apply Hall, all_pos_in_range.
Qed.

Lemma latin_once g s :
  g ∈ create_groups → s ∈ CHOICES → occurrences s (sol <$> g) = 1.
Proof.
  intros Hg Hs. destruct Hsol as [_ Hall]. rewrite Forall_forall in Hall.
  specialize (Hall g Hg). rewrite Forall_forall in Hall. by apply Hall.
Qed.

Lemma latin_inj g p q :
  g ∈ create_groups → p ∈ g → q ∈ g → sol p = sol q → p = q.
Proof.
  intros Hg Hp Hq Heq. destruct (decide (p = q)) as [|Hne]; [done|].
  pose proof (occurrences_two sol g p q Hp Hq Hne Heq) as H2.
  rewrite latin_once in H2; [lia|done|].
  apply latin_symbol. pose proof (groups_in_range HC g Hg) as Hr.
  rewrite Forall_forall in Hr. by apply Hr.
Qed.

Lemma latin_NoDup g : g ∈ create_groups → NoDup (sol <$> g).
Proof.
  intros Hg.
  assert (∀ s, s ∈ sol <$> g → occurrences s (sol <$> g) = 1) as Hocc.
  { intros s Hs. apply latin_once; [done|].
    apply list_elem_of_fmap in Hs as (p & -> & Hp). apply latin_symbol.
    pose proof (groups_in_range HC g Hg) as Hr.
    rewrite Forall_forall in Hr. by apply Hr. }
  clear Hg. induction (sol <$> g) as [|x l IH]; [constructor|].
  pose proof (Hocc x ltac:(set_solver)) as Hx.
  rewrite occurrences_cons decide_True // in Hx.
  constructor.
  - intros Hin. apply occurrences_elem in Hin. lia.
  - apply IH. intros s Hs. pose proof (Hocc s ltac:(set_solver)) as Hs1.
    rewrite occurrences_cons in Hs1. apply occurrences_elem in Hs.
    case_decide; lia.
Qed.

Lemma latin_holder g v :
  g ∈ create_groups → v ∈ CHOICES → ∃ q, q ∈ g ∧ sol q = v.
Proof.
  intros Hg Hv. pose proof (latin_once g v Hg Hv) as Hone.
  assert (v ∈ sol <$> g) as Hin by (apply occurrences_elem; lia).
  apply list_elem_of_fmap in Hin as (q & -> & Hq). by exists q.
Qed.

Lemma admits_known (b : Board) p :
  board_ok b → admits sol b → in_range p →
  value (tile_at b p) ≠ UNKNOWN → value (tile_at b p) = sol p.
Proof.
  intros Hb Ha Hp Hk.
  destruct (tile_ok_known _ (board_ok_at _ _ Hb Hp) Hk) as [_ Hc].
  specialize (Ha p Hp). rewrite Hc in Ha. set_solver.
Qed.

Lemma admits_update (b : Board) p t' :
  board_ok b → admits sol b → in_range p → sol p ∈ candidates t' →
  admits sol (update_tile b p (λ _, t')).
Proof.
  intros [Hs _] Ha Hp Ht q Hq. destruct (decide (p = q)) as [<-|Hne].
  - by rewrite tile_at_update_eq.
  - rewrite tile_at_update_ne //. by apply Ha.
Qed.

(** The values seen in a group are not the solution of an UNKNOWN tile
    of that group. *)
Lemma used_not_solution (bg b : Board) g p :
  g ∈ create_groups → board_ok bg → admits sol bg → narrows bg b →
  p ∈ g → value (tile_at b p) = UNKNOWN →
  sol p ∉ (list_to_set (group_values bg g) : gset string).
Proof.
  intros Hg Hbg Ha (_ & _ & _ & Hkept) Hp Hu Hin.
  pose proof (groups_in_range HC g Hg) as Hr. rewrite Forall_forall in Hr.
  apply elem_of_list_to_set in Hin. unfold group_values in Hin.
  apply list_elem_of_filter in Hin as [Hne Hin].
  apply list_elem_of_fmap in Hin as (q & Hq & Hqg).
  assert (value (tile_at bg q) ≠ UNKNOWN) as Hk by (by rewrite -Hq).
  pose proof (admits_known bg q Hbg Ha (Hr q Hqg) Hk) as Hsq.
  assert (p = q) as -> by (eapply latin_inj; [done..|congruence]).
  rewrite (Hkept q (Hr q Hqg) Hk) in Hu. done.
Qed.

Lemma naked_step_admits (bg : Board) g st p :
  g ∈ create_groups → board_ok bg → admits sol bg →
  narrows bg st.2 → admits sol st.2 → p ∈ g →
  let st' := naked_step (list_to_set (group_values bg g)) st p in
  narrows bg st'.2 ∧ admits sol st'.2.
Proof.
  intros Hg Hbg Ha Hn Hst Hp. simpl.
  pose proof (groups_in_range HC g Hg) as Hr. rewrite Forall_forall in Hr.
  pose proof Hn as [Hb _].
  split.
  { eapply narrows_trans; [exact Hn|].
    apply (naked_step_advances HC HO); [done|by apply Hr]. }
  unfold naked_step. case_decide as Hu; [|done]. simpl.
  apply admits_update; [done..|by apply Hr|].
  destruct (remove_candidates_unknown Hunk (tile_at st.2 p)
              (list_to_set (group_values bg g))
              (board_ok_at _ _ Hb (Hr p Hp)) Hu) as (_ & -> & _).
  apply elem_of_difference. split; [by apply Hst, Hr|].
  by eapply used_not_solution.
Qed.

Lemma naked_group_admits st g :
  g ∈ create_groups → board_ok st.2 → admits sol st.2 →
  admits sol (naked_group st g).2.
Proof.
  intros Hg Hb Ha. unfold naked_group.
  apply (foldl_invariant (λ a, narrows st.2 a.2 ∧ admits sol a.2)
           (λ p, p ∈ g)).
  - split; [by apply narrows_refl|done].
  - by apply Forall_forall.
  - intros a p [Hn Hadm] Hp. by apply (naked_step_admits st.2 g).
Qed.

Lemma naked_single_admits b :
  board_ok b → admits sol b → admits sol (naked_single b).2.
Proof.
  intros Hb Ha. unfold naked_single.
  apply (foldl_invariant (λ a, board_ok a.2 ∧ admits sol a.2)
           (λ g, g ∈ create_groups)); [done|by apply Forall_forall|].
  intros a g [Hab Haa] Hg. split; [|by apply naked_group_admits].
  eapply advances_ok; [exact Hab|].
  apply (naked_group_advances HC HO); [done|by apply groups_in_range].
Qed.

Lemma hidden_step_admits g st v :
  g ∈ create_groups → board_ok st.2 → admits sol st.2 → v ∈ CHOICES →
  admits sol (hidden_step g st v).2.
Proof.
  intros Hg Hb Ha Hv. unfold hidden_step.
  pose proof (groups_in_range HC g Hg) as Hr. rewrite Forall_forall in Hr.
  destruct (filter _ g) as [|p [|q l]] eqn:Hf; try done. simpl.
  assert (∀ q, q ∈ g → v ∈ candidates (tile_at st.2 q) → q = p) as Honly.
  { intros q Hq Hadm.
    assert (q ∈ filter (λ p, v ∈ candidates (tile_at st.2 p)) g) as Hin
      by (by apply list_elem_of_filter).
    rewrite Hf in Hin. set_solver. }
  destruct (latin_holder g v Hg Hv) as (q & Hq & Hsq).
  assert (q = p) as ->.
  { apply Honly; [done|]. rewrite -Hsq. by apply Ha, Hr. }
  rewrite update_tile_const. apply admits_update; [done..|by apply Hr|].
  rewrite set_value_choice //=. set_solver.
Qed.

Lemma hidden_group_admits st g :
  g ∈ create_groups → board_ok st.2 → admits sol st.2 →
  admits sol (hidden_group st g).2.
Proof.
  intros Hg Hb Ha. unfold hidden_group.
  apply (foldl_invariant (λ a, board_ok a.2 ∧ admits sol a.2)
           (λ v, v ∈ CHOICES)); [done| |].
  - apply Forall_forall. intros v Hv. apply (set_iter_elem HO) in Hv.
    by eapply leftovers_choices.
  - intros a v [Hab Haa] Hv. split; [|by apply hidden_step_admits].
    eapply (hidden_step_narrows HC HO); [done| |done].
    by apply groups_in_range.
Qed.

Lemma hidden_single_admits b :
  board_ok b → admits sol b → admits sol (hidden_single b).2.
Proof.
  intros Hb Ha. unfold hidden_single.
  apply (foldl_invariant (λ a, board_ok a.2 ∧ admits sol a.2)
           (λ g, g ∈ create_groups)); [done|by apply Forall_forall|].
  intros a g [Hab Haa] Hg. split; [|by apply hidden_group_admits].
  eapply (hidden_group_narrows HC HO); [done|by apply groups_in_range].
Qed.

Lemma propagate_admits fuel b b' :
  board_ok b → admits sol b → propagate fuel b = Some b' → admits sol b'.
Proof.
  revert b. induction fuel as [|fuel IH]; intros b Hb Ha; simpl; [done|].
  pose proof (naked_single_advances HC HO b Hb) as [[Hnb _] _].
  pose proof (naked_single_admits b Hb Ha) as Hna.
  pose proof (hidden_single_narrows HC HO _ Hnb) as [Hhb _].
  pose proof (hidden_single_admits _ Hnb Hna) as Hha.
  destruct (naked_single b).1; [by apply IH|]. by intros [= <-].
Qed.

End Completion.

(** ** Search finds a completion *)

Section Completeness.
Context `{SdkConfig} `{SetOrder}.
Hypothesis HC : ConfigOK.
Hypothesis HO : SetOrderOK.
Variable sol : pos → string.
Hypothesis Hsol : latin sol.

Let Hunk : UNKNOWN ∉ CHOICES := unknown_not_choice HC.

Lemma group_values_sol (b : Board) g :
  board_ok b → admits sol b → Forall in_range g →
  group_values b g
  = sol <$> filter (λ p, value (tile_at b p) ≠ UNKNOWN) g.
Proof.
  intros Hb Ha. unfold group_values.
  induction 1 as [|p g Hp _ IH]; [done|].
  rewrite /= !filter_cons. case_decide as Hk; [|done].
  rewrite fmap_cons. f_equal; [|done]. by apply admits_known.
Qed.

Lemma admits_consistent (b : Board) :
  board_ok b → admits sol b → is_consistent b = true.
Proof.
  intros Hb Ha. unfold is_consistent. apply forallb_forall. intros g Hg.
  apply list_elem_of_In in Hg. apply bool_decide_eq_true. symmetry.
  apply size_list_to_set.
  rewrite group_values_sol //; [|by apply groups_in_range].
  pose proof (latin_NoDup HC HO sol Hsol g Hg) as Hnd.
  apply NoDup_fmap_2_strong.
  - intros p q Hp%list_elem_of_filter Hq%list_elem_of_filter Heq.
    eapply (latin_inj HC HO sol Hsol g); naive_solver.
  - apply NoDup_filter. by eapply NoDup_fmap_1.
Qed.

Lemma admits_guess (b : Board) p :
  board_ok b → admits sol b → in_range p →
  admits sol (update_tile b p (λ t, set_value t (sol p))).
Proof.
  intros Hb Ha Hp. rewrite update_tile_const.
  apply admits_update; [done..|].
  rewrite set_value_choice /=; [set_solver|]. by apply latin_symbol.
Qed.

Lemma admits_restore (b b' b1 : Board) :
  board_ok b1 → admits sol b1 →
  (∀ p, in_range p →
        tile_at b' p = set_value (tile_at b p) (value (tile_at b1 p))) →
  admits sol b'.
Proof.
  intros Hb1 Ha Hat p Hp. rewrite Hat //.
  destruct (decide (value (tile_at b1 p) = UNKNOWN)) as [Hu|Hk].
  - rewrite Hu set_value_other //=. apply elem_of_list_to_set.
    by apply latin_symbol.
  - rewrite (admits_known HC HO sol Hsol b1 p Hb1 Ha Hp Hk).
    rewrite set_value_choice /=; [set_solver|]. by apply latin_symbol.
Qed.

Lemma try_values_complete rec saved p vals b b1 :
  (∀ b r, board_ok b → rec b = Some r →
          board_ok r.2 ∧ (r.1 = true → is_complete r.2 = true)) →
  (∀ b, board_ok b → cap b < cap b1 → ∃ r, rec b = Some r) →
  (∀ b, board_ok b → admits sol b → cap b < cap b1 →
        ∃ b', rec b = Some (true, b')) →
  board_ok b1 → admits sol b1 → saved = as_list b1 → in_range p →
  value (tile_at b1 p) = UNKNOWN → Forall (λ v, v ∈ CHOICES) vals →
  sol p ∈ vals →
  board_ok b → admits sol b → same_values b b1 →
  ∃ b', try_values rec saved p vals b = Some (true, b').
Proof.
  intros Hrec Hterm Hfind Hb1 Ha1 -> Hp Hu Hvals. revert b.
  induction Hvals as [|v vals Hv _ IH]; intros b Hin Hb Ha Hsame; simpl;
    [by apply not_elem_of_nil in Hin|].
  assert (board_ok (update_tile b p (λ t, set_value t v))) as Hg.
  { apply board_ok_update; [done|]. by apply set_value_ok. }
  assert (cap (update_tile b p (λ t, set_value t v)) < cap b1) as Hlt.
  { assert (cap b = cap b1) as <-.
    { apply cap_same_values; [apply Hb|apply Hb1|done]. }
    apply (cap_guess HC); [done|done| |done]. by rewrite (Hsame p Hp). }
  destruct (decide (v = sol p)) as [->|Hne].
  { destruct (Hfind _ Hg) as [b' ->]; [by apply admits_guess|done|].
    by eexists. }
  destruct (Hterm _ Hg Hlt) as [[[] bf] Hr]; rewrite Hr; [by eexists|].
  apply Hrec in Hr as [[Hsf _] _]; [|done].
  destruct (restore_spec HC bf b1 Hsf Hb1) as (b' & -> & Hb' & Hv' & Hat).
  simpl. apply IH; [|done| |done].
  - apply elem_of_cons in Hin as [?|?]; [congruence|done].
  - exact (admits_restore bf b' b1 Hb1 Ha1 Hat).
Qed.

(** A board that admits a solved grid is solved. *)
Lemma solve_complete fuel b :
  board_ok b → admits sol b → cap b < fuel →
  ∃ b', solve fuel b = Some (true, b').
Proof.
  revert b. induction fuel as [|fuel IH]; intros b Hb Ha Hlt; [lia|].
  cbn [solve].
  destruct (propagate_terminates HC HO (S fuel) b Hb) as [b1 Hprop].
  { pose proof (cand_sum_le_cap b Hb). lia. }
  rewrite Hprop /=.
  pose proof (propagate_narrows HC HO _ _ _ Hb Hprop) as (Hb1 & _ & Hcap & _).
  pose proof (propagate_admits HC HO sol Hsol _ _ _ Hb Ha Hprop) as Ha1.
  destruct (is_complete b1) eqn:Hc; [by eexists|].
  rewrite (admits_consistent b1 Hb1 Ha1) /=.
  destruct (min_choice_some HC HO b1 Hc) as (p & -> & Hp & Hu). simpl.
  eapply try_values_complete; try done.
  - intros b' r' Hb' Hs.
    by destruct (solve_spec HC HO _ _ _ Hb' Hs) as (? & ? & _).
  - intros b' Hb' Hlt'. apply (solve_terminates HC HO); [done|lia].
  - intros b' Hb' Ha' Hlt'. apply IH; [done..|lia].
  - by apply (set_iter_choices HC HO).
  - apply (set_iter_elem HO). by apply Ha1.
Qed.

End Completeness.

(** * The claims of the specification *)

Section TileContract.
Context `{SdkConfig}.

Lemma set_value_forgets t c v :
  set_value (with_candidates t c) v = set_value t v.
Proof. unfold set_value. by case_decide. Qed.

(** C8 -- remove_candidates contract.  On a tile whose candidates are
    drawn from CHOICES, [remove_candidates used] returns False and leaves
    the tile as it is when the difference equals the candidates;
    otherwise it returns True and the candidates become the difference:
    when exactly one candidate is left the tile is promoted by
    [set_value] to that symbol, in every other case the value is kept,
    and when nothing is left an UNKNOWN tile stays UNKNOWN with no
    candidate.  The function is total: no error is raised. *)
Theorem remove_candidates_contract (t : Tile) (used : gset string) :
  candidates t ⊆ list_to_set CHOICES →
  let diff := candidates t ∖ used in
  let r := remove_candidates t used in
  (diff = candidates t → r = (false, t)) ∧
  (diff ≠ candidates t →
     r.1 = true ∧ candidates r.2 = diff ∧
     row r.2 = row t ∧ col r.2 = col t ∧
     (∀ v, diff = {[ v ]} → r.2 = set_value t v ∧ value r.2 = v) ∧
     (size diff ≠ 1 → value r.2 = value t) ∧
     (diff = ∅ → value t = UNKNOWN →
        value r.2 = UNKNOWN ∧ candidates r.2 = ∅)).
Proof.
  intros Hsub. simpl. unfold remove_candidates.
  case_decide as Hd; split; try done. intros _.
  destruct (elements (candidates t ∖ used)) as [|v [|w l]] eqn:He; simpl.
  - apply elements_empty_inv, leibniz_equiv in He.
    split_and!; [done..| | |].
    + intros v Hv. rewrite Hv in He. set_solver.
    + done.
    + intros _ Hu. by rewrite He.
  - apply elements_one in He.
    assert (v ∈ CHOICES) as Hv.
    { apply (elem_of_list_to_set (C:=gset string)). set_solver. }
    rewrite set_value_forgets set_value_choice //=.
    split_and!; [done..| | |].
    + intros v' Hv'. rewrite He in Hv'.
      assert (v = v') as <- by set_solver. by rewrite set_value_choice.
    + rewrite He size_singleton. done.
    + rewrite He. set_solver.
  - assert (size (candidates t ∖ used) = S (S (length l))) as Hsize.
    { unfold size, set_size. simpl. by rewrite He. }
    split_and!; [done..| | |].
    + intros v' Hv'. rewrite Hv' size_singleton in Hsize. lia.
    + done.
    + intros Hemp. rewrite Hemp size_empty in Hsize. lia.
Qed.

(** C9 -- no validation of symbols.  [set_value] with any token outside
    CHOICES makes the tile UNKNOWN with the full candidate set, and
    [set_tiles] on an input of the right dimensions never raises: every
    tile is written by [set_value], so a malformed symbol yields an
    UNKNOWN tile. *)
Theorem set_tiles_accepts_any_symbol (b : Board)
    (tile_values : list (list string)) :
  shape b → Forall (λ p, is_Some (sym_at tile_values p)) all_pos →
  (∀ t v, v ∉ CHOICES →
          value (set_value t v) = UNKNOWN ∧
          candidates (set_value t v) = list_to_set CHOICES) ∧
  ∃ b', set_tiles b tile_values = Some b' ∧
        ∀ p v, in_range p → sym_at tile_values p = Some v →
               tile_at b' p = set_value (tile_at b p) v ∧
               (v ∉ CHOICES →
                  value (tile_at b' p) = UNKNOWN ∧
                  candidates (tile_at b' p) = list_to_set CHOICES).
Proof.
  intros Hs Htv.
  assert (∀ t v, v ∉ CHOICES →
            value (set_value t v) = UNKNOWN ∧
            candidates (set_value t v) = list_to_set CHOICES) as Hset.
  { intros t v Hv. by rewrite set_value_other. }
  split; [done|].
  destruct (set_tiles_spec b tile_values Hs) as (b' & Hb' & _ & Hat).
  { intros p Hp. rewrite Forall_forall in Htv.
    apply Htv. unfold all_pos. apply list_elem_of_In, in_flat_map.
    exists p.1. destruct Hp. split; [apply in_seq; lia|].
    apply in_map_iff. exists p.2. split; [by destruct p|apply in_seq; lia]. }
  exists b'. split; [done|]. intros p v Hp Hv.
  rewrite (Hat p v Hp Hv). split; [done|]. apply Hset.
Qed.

(** C10 -- min_choice_tile.  On a grid with no UNKNOWN tile the result is
    None, no exception.  Otherwise the result is an UNKNOWN tile of the
    enumeration (blocks, then rows, then columns) that has strictly fewer
    candidates than every UNKNOWN tile met before it and no more than any
    UNKNOWN tile met after it: the first tile that reaches the minimum. *)
Theorem min_choice_tile_spec (b : Board) :
  (Forall (λ q, value (tile_at b q) ≠ UNKNOWN) (concat create_groups) →
   min_choice_tile b = None) ∧
  (¬ Forall (λ q, value (tile_at b q) ≠ UNKNOWN) (concat create_groups) →
   ∃ p before after,
     min_choice_tile b = Some p ∧
     concat create_groups = before ++ p :: after ∧
     value (tile_at b p) = UNKNOWN ∧
     Forall (λ q, value (tile_at b q) = UNKNOWN →
                  size (candidates (tile_at b p))
                  < size (candidates (tile_at b q))) before ∧
     Forall (λ q, value (tile_at b q) = UNKNOWN →
                  size (candidates (tile_at b p))
                  ≤ size (candidates (tile_at b q))) after).
Proof.
  split.
  - intros Hall. apply min_choice_none. by apply is_complete_spec.
  - intros Hnot. unfold min_choice_tile.
    pose proof (min_fold_spec b (concat create_groups)) as Hm.
    destruct (foldl _ _ _) as [[n p]|]; [|done].
    destruct Hm as (l1 & l2 & Hl & Hu & -> & H1 & H2).
    by exists p, l1, l2.
Qed.

End TileContract.

Section SnapshotClaim.
Context `{SdkConfig}.
Hypothesis HC : ConfigOK.

Let Hunk : UNKNOWN ∉ CHOICES := unknown_not_choice HC.

Lemma set_value_own_value t :
  tile_ok t →
  (value t = UNKNOWN → candidates t = list_to_set CHOICES) →
  set_value t (value t) = t.
Proof.
  intros Hok Hfull. destruct (decide (value t = UNKNOWN)) as [Hu|Hk].
  - rewrite Hu set_value_other //. destruct t; simpl in *.
    by rewrite Hu (Hfull Hu).
  - destruct (tile_ok_known t Hok Hk) as [Hin Hc].
    rewrite set_value_choice //. destruct t; simpl in *. by rewrite Hc.
Qed.

(** C5 (amended) -- snapshot round trip.  [set_tiles(as_list())]
    succeeds on every board that satisfies the tile invariant and keeps
    every tile's value (and position); each candidate set becomes the one
    [set_value] derives from the value, so the candidates of an UNKNOWN
    tile are reset to all of CHOICES.  The grid is unchanged exactly when
    every UNKNOWN tile already had the full candidate set. *)
Theorem set_tiles_as_list_keeps_values (b : Board) :
  board_ok b →
  ∃ b', set_tiles b (map str_items (as_list b)) = Some b' ∧
        as_list b' = as_list b ∧
        (∀ p, in_range p →
           row (tile_at b' p) = row (tile_at b p) ∧
           col (tile_at b' p) = col (tile_at b p) ∧
           value (tile_at b' p) = value (tile_at b p) ∧
           candidates (tile_at b' p)
           = if decide (value (tile_at b p) = UNKNOWN)
             then list_to_set CHOICES else {[ value (tile_at b p) ]}) ∧
        (b' = b ↔ fresh b).
Proof.
  intros Hb. pose proof Hb as [Hs Hall].
  destruct (restore_spec HC b b Hs Hb) as (b' & Hset & Hb' & Hv' & Hat).
  exists b'. split_and!; [done| | |].
  - apply as_list_same_values; [apply Hb'|done|done].
  - intros p Hp. rewrite (Hat p Hp).
    pose proof (board_ok_at _ _ Hb Hp) as Hok. case_decide as Hu.
    + by rewrite Hu set_value_other.
    + destruct (tile_ok_known _ Hok Hu) as [Hin _].
      by rewrite set_value_choice.
  - split.
    + intros ->. split; [done|]. apply board_forall_intro; [done|].
      intros p Hp Hu. specialize (Hat p Hp). rewrite Hat Hu.
      by rewrite set_value_other.
    + intros [_ Hfull]. apply board_ext; [apply Hb'|done|].
      intros p Hp. rewrite (Hat p Hp). apply set_value_own_value.
      * by apply board_ok_at.
      * by apply (board_forall_at _ b p Hs Hfull Hp).
Qed.

End SnapshotClaim.

Section SolverClaims.
Context `{SdkConfig} `{SetOrder}.
Hypothesis HC : ConfigOK.
Hypothesis HO : SetOrderOK.

Let Hunk : UNKNOWN ∉ CHOICES := unknown_not_choice HC.

Lemma set_tiles_board_ok (b b' : Board) tile_values :
  board_ok b → set_tiles b tile_values = Some b' → board_ok b'.
Proof.
  intros Hb. unfold set_tiles. revert b'.
  apply (foldl_invariant (λ ob, ∀ b', ob = Some b' → board_ok b')
           (λ _, True)); [by intros ? [= <-]|by apply Forall_true|].
  intros ob r Hob _.
  apply (foldl_invariant (λ ob, ∀ b', ob = Some b' → board_ok b')
           (λ _, True)); [done|by apply Forall_true|].
  clear ob Hob. intros ob c Hob _ b'.
  destruct ob as [b0|]; simpl; [|done].
  destruct (tile_values !! r ≫= (.!! c)) as [v|]; simpl; [|done].
  intros [= <-].
  apply board_ok_update; [by apply Hob|]. by apply set_value_ok.
Qed.

Lemma fresh_admits (b : Board) sol :
  fresh b → valid_completion sol b → admits sol b.
Proof.
  intros [Hb Hfull] [Hsol Hag] p Hp.
  pose proof Hb as [Hs _].
  pose proof (board_ok_at _ _ Hb Hp) as Hok.
  destruct (decide (value (tile_at b p) = UNKNOWN)) as [Hu|Hk].
  - rewrite (board_forall_at _ b p Hs Hfull Hp Hu).
    apply elem_of_list_to_set. by apply latin_symbol.
  - destruct (tile_ok_known _ Hok Hk) as [_ ->].
    unfold agrees in Hag. rewrite Forall_forall in Hag.
    assert (sol p = value (tile_at b p)) as ->; [|set_solver].
    apply Hag; [by apply all_pos_in_range|done].
Qed.

(** C2 -- completeness.  A board as loaded (every UNKNOWN tile admits all
    of CHOICES) that has a valid completion is solved: with fuel above
    the capacity of the board, [solve] returns True. *)
Theorem solve_finds_completion (b : Board) (sol : pos → string)
    (fuel : nat) :
  fresh b → valid_completion sol b → solve_fuel b ≤ fuel →
  ∃ b', solve fuel b = Some (true, b').
Proof.
  intros Hf Hv Hfuel. pose proof Hf as [Hb _]. pose proof Hv as [Hsol _].
  apply (solve_complete HC HO sol Hsol); [done| |unfold solve_fuel in *; lia].
  by apply fresh_admits.
Qed.

(** C6 (amended) -- state after a failed solve.  When [solve] returns
    False, the tile values of the grid are those that solve's own initial
    [propagate] produced: the values (not the candidate sets) of the
    state at which the snapshot is taken.  Tiles that had a value when
    [solve] was entered still have it; the tiles that this propagation
    resolved stay resolved. *)
Theorem solve_failure_keeps_propagated_values (fuel : nat) (b b' : Board) :
  board_ok b → solve fuel b = Some (false, b') →
  ∃ b1, propagate fuel b = Some b1 ∧ as_list b' = as_list b1 ∧
        board_ok b' ∧
        ∀ p, in_range p → value (tile_at b p) ≠ UNKNOWN →
             value (tile_at b' p) = value (tile_at b p).
Proof.
  intros Hb Hs.
  destruct (solve_spec HC HO _ _ _ Hb Hs) as (Hb' & _ & Hfalse).
  destruct (Hfalse eq_refl) as (b1 & Hprop & Hsame). simpl in *.
  pose proof (propagate_narrows HC HO _ _ _ Hb Hprop) as (Hb1 & _ & _ & Hk).
  exists b1. split_and!; [done| |done|].
  - apply as_list_same_values; [apply Hb'|apply Hb1|done].
  - intros p Hp Hne. rewrite (Hsame p Hp). by rewrite (Hk p Hp Hne).
Qed.

(** C7 (amended) -- cell invariant.  [set_value] establishes the tile
    invariant; [remove_candidates] preserves it on a tile whose value is
    UNKNOWN (the tiles it is meant for and the only ones [naked_single]
    passes to it); [set_tiles], [naked_single], [hidden_single],
    [propagate] and [solve] preserve it on every tile of the board, and
    [propagate] and [solve] do return a board when given enough fuel. *)
Theorem cell_invariant_preserved :
  (∀ t v, tile_ok (set_value t v)) ∧
  (∀ t used, tile_ok t → value t = UNKNOWN →
             tile_ok (remove_candidates t used).2) ∧
  (∀ b tile_values b', board_ok b → set_tiles b tile_values = Some b' →
                       board_ok b') ∧
  (∀ b, board_ok b → board_ok (naked_single b).2) ∧
  (∀ b, board_ok b → board_ok (hidden_single b).2) ∧
  (∀ b fuel b', board_ok b → propagate fuel b = Some b' → board_ok b') ∧
  (∀ b fuel r, board_ok b → solve fuel b = Some r → board_ok r.2) ∧
  (∀ b fuel, board_ok b → solve_fuel b ≤ fuel →
             (∃ b', propagate fuel b = Some b') ∧
             (∃ r, solve fuel b = Some r)).
Proof.
  split_and!.
  - intros t v. by apply set_value_ok.
  - intros t used Hok Hu.
    by destruct (remove_candidates_unknown Hunk t used Hok Hu) as [? _].
  - intros b tv b'. apply set_tiles_board_ok.
  - intros b Hb. by destruct (naked_single_advances HC HO b Hb) as [[? _] _].
  - intros b Hb. by destruct (hidden_single_narrows HC HO b Hb) as [? _].
  - intros b fuel b' Hb Hp.
    by destruct (propagate_narrows HC HO _ _ _ Hb Hp) as [? _].
  - intros b fuel r Hb Hs. by destruct (solve_spec HC HO _ _ _ Hb Hs) as [? _].
  - intros b fuel Hb Hfuel. unfold solve_fuel in Hfuel. split.
    + apply (propagate_terminates HC HO); [done|].
      pose proof (cand_sum_le_cap b Hb). lia.
    + apply (solve_terminates HC HO); [done|lia].
Qed.

End SolverClaims.

(** * The configuration of the examples *)

Lemma sdk9_ok : @ConfigOK sdk9.
Proof.
  split; try done.
  - vm_compute. intros Hin. repeat (apply elem_of_cons in Hin as [Hin|Hin]; [done|]).
    by apply not_elem_of_nil in Hin.
  - repeat constructor.
Qed.

Lemma sorted_order_ok : @SetOrderOK sorted_order.
Proof. intros s. simpl. apply merge_sort_Permutation. Qed.

(** * Worked examples on the 9x9 board *)

Section Examples.
#[local] Existing Instance sdk9.

Lemma trap_board_fresh : fresh (board_of trap_rows).
Proof. compute_done. Qed.

Lemma stuck_board_fresh : fresh (board_of stuck_rows).
Proof. compute_done. Qed.

(** Propagation on [trap_rows]: one round of naked singles fills (0,8)
    and (3,7) from their blocks, the next round changes nothing. *)
Lemma trap_propagates `{SetOrder} (fuel : nat) :
  SetOrderOK → 2 ≤ fuel →
  propagate fuel (board_of trap_rows) = Some trap_filled.
Proof.
  intros HO Hfuel. apply (propagate_fuel_mono 2); [|done].
  apply propagate_idle_sound; [done|]. vm_compute. reflexivity.
Qed.

Lemma trap_solved `{SetOrder} (fuel : nat) :
  SetOrderOK → 2 ≤ fuel →
  solve fuel (board_of trap_rows) = Some (true, trap_filled).
Proof.
  intros HO Hfuel. destruct fuel as [|fuel]; [lia|]. cbn [solve].
  rewrite (trap_propagates (S fuel) HO Hfuel). cbn [mbind option_bind].
  assert (is_complete trap_filled = true) as -> by (vm_compute; reflexivity).
  reflexivity.
Qed.

(** C1 -- soundness fails on the code.  [trap_rows] is a consistent
    puzzle; whatever the iteration order of sets, [solve] returns True on
    it and leaves a complete grid in which column 8 holds "9" twice and
    column 7 holds "7" twice, so [is_consistent] is False: [solve] tests
    [is_complete] before [is_consistent]. *)
Theorem solve_accepts_inconsistent_grid `{SetOrder} (fuel : nat) :
  SetOrderOK → 2 ≤ fuel →
  is_consistent (board_of trap_rows) = true ∧
  solve fuel (board_of trap_rows) = Some (true, trap_filled) ∧
  is_complete trap_filled = true ∧
  is_consistent trap_filled = false ∧
  as_list trap_filled
  = ["123456789"; "456789123"; "789123456";
     "231564879"; "564897231"; "897231564";
     "312645978"; "645978312"; "978312645"].
Proof.
  intros HO Hfuel. split_and!; [|by apply trap_solved|..];
    vm_compute; reflexivity.
Qed.

Lemma solve_accepts_inconsistent_grid_witness :
  @solve sdk9 sorted_order 2 (board_of trap_rows) = Some (true, trap_filled) ∧
  is_consistent trap_filled = false.
Proof.
  destruct (@solve_accepts_inconsistent_grid sorted_order 2
              sorted_order_ok (le_n 2)) as (_ & Hs & _ & Hc & _).
  split; [exact Hs|exact Hc].
Defined.

(** C3 -- unsat detection fails on the code.  [trap_rows] has no valid
    completion (row 0 needs "9" at (0,8), column 8 already holds "9"),
    and yet [solve] terminates with True, whatever the iteration order of
    sets. *)
Theorem solve_accepts_unsolvable_board `{SetOrder} (fuel : nat) :
  SetOrderOK → 2 ≤ fuel →
  (∀ sol, ¬ valid_completion sol (board_of trap_rows)) ∧
  ∃ b', solve fuel (board_of trap_rows) = Some (true, b').
Proof.
  intros HO Hfuel. split; [|eexists; by apply trap_solved].
  intros sol Hv. pose proof Hv as [Hsol _].
  pose proof trap_board_fresh as Hf. pose proof Hf as [Hb _].
  pose proof (fresh_admits sdk9_ok HO _ sol Hf Hv) as Ha.
  pose proof (trap_propagates 2 HO (le_n 2)) as Hp.
  pose proof (propagate_admits sdk9_ok HO sol Hsol _ _ _ Hb Ha Hp) as Ha'.
  pose proof (propagate_narrows sdk9_ok HO _ _ _ Hb Hp) as [Hb' _].
  pose proof (admits_consistent sdk9_ok HO sol Hsol _ Hb' Ha') as Hc.
  assert (is_consistent trap_filled = false) as Hc'
    by (vm_compute; reflexivity).
  congruence.
Qed.

Lemma solve_accepts_unsolvable_board_witness :
  ∃ b', @solve sdk9 sorted_order 2 (board_of trap_rows) = Some (true, b').
Proof.
  exact (proj2 (@solve_accepts_unsolvable_board sorted_order 2
                  sorted_order_ok (le_n 2))).
Defined.

(** C4 -- propagation is not idempotent on the code.  On the consistent
    puzzle [twelve_rows] (sets iterated in ascending order) the last
    round of [propagate] sees [naked_single] report no progress while
    [hidden_single] still places "5" at (5,1); the loop stops there, so
    the grid it leaves is no fixpoint: [naked_single] crosses off more
    candidates on it, and a second [propagate] resolves (7,0) to "5". *)
Theorem propagate_not_idempotent :
  fresh (board_of twelve_rows) ∧
  is_consistent (board_of twelve_rows) = true ∧
  ∃ b1 b2,
    @propagate sdk9 sorted_order 10 (board_of twelve_rows) = Some b1 ∧
    @propagate sdk9 sorted_order 10 b1 = Some b2 ∧
    (naked_single b1).1 = true ∧
    as_list b1
    = [".......3."; "...3....."; ".3.......";
       "....5...3"; "....3.5.."; "353......";
       "8.7...1.."; "..2..3..."; "......3.5"] ∧
    as_list b2
    = [".......3."; "...3....."; ".3.......";
       "....5...3"; "....3.5.."; "353......";
       "8.7...1.."; "5.2..3..."; "......3.5"].
Proof.
  split; [compute_done|]. split; [vm_compute; reflexivity|].
  exists (default [] (@propagate sdk9 sorted_order 10 (board_of twelve_rows))).
  exists (default [] (@propagate sdk9 sorted_order 10
            (default [] (@propagate sdk9 sorted_order 10
                           (board_of twelve_rows))))).
  split_and!; vm_compute; reflexivity.
Qed.

(** C2, an instance: the puzzle [easy_rows] with its solution. *)
Lemma solve_finds_completion_witness :
  fresh (board_of easy_rows) ∧
  valid_completion (grid_fun easy_solution) (board_of easy_rows) ∧
  ∃ b', @solve sdk9 sorted_order (solve_fuel (board_of easy_rows))
          (board_of easy_rows) = Some (true, b').
Proof.
  assert (fresh (board_of easy_rows)) as Hf by compute_done.
  assert (valid_completion (grid_fun easy_solution) (board_of easy_rows))
    as Hv by compute_done.
  split_and!; [exact Hf|exact Hv|].
  exact (@solve_finds_completion sdk9 sorted_order sdk9_ok sorted_order_ok
           _ _ _ Hf Hv (le_n _)).
Defined.

(** C5 -- the claim as stated fails: after a round of [naked_single] the
    tile (0,1) of [one_given_rows] has lost the candidate "1", and
    [set_tiles(as_list())] gives it back. *)
Lemma set_tiles_as_list_resets_candidates :
  let b := (naked_single (board_of one_given_rows)).2 in
  board_ok b ∧
  ∃ b', set_tiles b (map str_items (as_list b)) = Some b' ∧
        "1" ∉ candidates (tile_at b (0, 1)) ∧
        "1" ∈ candidates (tile_at b' (0, 1)) ∧ b' ≠ b.
Proof.
  cbv zeta. split; [compute_done|].
  exists (default [] (set_tiles (naked_single (board_of one_given_rows)).2
            (map str_items
               (as_list (naked_single (board_of one_given_rows)).2)))).
  split_and!; [vm_compute; reflexivity|compute_done..].
Qed.

Lemma set_tiles_as_list_keeps_values_witness :
  let b := (naked_single (board_of one_given_rows)).2 in
  ∃ b', set_tiles b (map str_items (as_list b)) = Some b' ∧
        as_list b' = as_list b.
Proof.
  cbv zeta.
  assert (board_ok (naked_single (board_of one_given_rows)).2) as Hb
    by compute_done.
  destruct (@set_tiles_as_list_keeps_values sdk9 sdk9_ok _ Hb)
    as (b' & Hset & Hlist & _).
  exists b'. split; [exact Hset|exact Hlist].
Defined.

(** C6 -- the claim as stated fails: on [stuck_rows], [solve] returns
    False and leaves (1,5) and (2,8) resolved, which were UNKNOWN when it
    was called. *)
Lemma solve_failure_not_restored :
  ∃ b', @solve sdk9 sorted_order 10 (board_of stuck_rows) = Some (false, b') ∧
        as_list (board_of stuck_rows)
        = ["12345678."; "45678.129"; "78912345.";
           "231564897"; "564897231"; "897231564";
           "312645978"; "645978312"; "978312645"] ∧
        as_list b'
        = ["12345678."; "456789129"; "789123456";
           "231564897"; "564897231"; "897231564";
           "312645978"; "645978312"; "978312645"] ∧
        b' ≠ board_of stuck_rows.
Proof.
  exists stuck_propagated. split_and!; [vm_compute; reflexivity..|].
  compute_done.
Qed.

Lemma solve_failure_keeps_propagated_values_witness :
  ∃ b1, @propagate sdk9 sorted_order 10 (board_of stuck_rows) = Some b1 ∧
        as_list stuck_propagated = as_list b1.
Proof.
  assert (board_ok (board_of stuck_rows)) as Hb by compute_done.
  assert (@solve sdk9 sorted_order 10 (board_of stuck_rows)
          = Some (false, stuck_propagated)) as Hs
    by (vm_compute; reflexivity).
  destruct (@solve_failure_keeps_propagated_values sdk9 sorted_order
              sdk9_ok sorted_order_ok 10 _ _ Hb Hs) as (b1 & Hp & Hl & _).
  exists b1. split; [exact Hp|exact Hl].
Defined.

(** C7 -- the claim as stated fails for [remove_candidates]: applied to a
    tile that holds "1", with "1" among the used values, it leaves the
    value "1" with no candidate. *)
Lemma remove_candidates_breaks_invariant :
  let t := new_tile 0 0 "1" in
  let t' := (remove_candidates t {[ "1" ]}).2 in
  tile_ok t ∧ value t' = "1" ∧ candidates t' = ∅ ∧ ¬ cell_inv t'.
Proof. cbv zeta. split_and!; compute_done. Qed.

Lemma cell_invariant_preserved_witness : board_ok trap_filled.
Proof.
  assert (board_ok (board_of trap_rows)) as Hb by compute_done.
  destruct (@cell_invariant_preserved sdk9 sorted_order sdk9_ok
              sorted_order_ok) as (_ & _ & _ & _ & _ & Hprop & _).
  exact (Hprop _ 2 _ Hb (trap_propagates 2 sorted_order_ok (le_n 2))).
Defined.

Lemma remove_candidates_contract_witness :
  let t := with_candidates (new_tile 0 0 ".") {[ "1"; "2" ; "3" ]} in
  let r := remove_candidates t {[ "2"; "7" ]} in
  r.1 = true ∧ candidates r.2 = {[ "1"; "2"; "3" ]} ∖ {[ "2"; "7" ]}.
Proof.
  cbv zeta.
  assert (candidates (with_candidates (new_tile 0 0 ".") {[ "1"; "2" ; "3" ]})
          ⊆ list_to_set CHOICES) as Hsub by compute_done.
  destruct (@remove_candidates_contract sdk9 _ {[ "2"; "7" ]} Hsub)
    as [_ Hchanged].
  destruct Hchanged as (Hflag & Hcand & _); [compute_done|].
  split; [exact Hflag|exact Hcand].
Defined.

Lemma set_tiles_accepts_any_symbol_witness :
  ∃ b', set_tiles empty_board (map str_items junk_rows) = Some b' ∧
        value (tile_at b' (0, 0)) = "." ∧
        candidates (tile_at b' (0, 0)) = list_to_set CHOICES ∧
        value (tile_at b' (0, 1)) = "2".
Proof.
  assert (shape empty_board) as Hs by compute_done.
  assert (Forall (λ p, is_Some (sym_at (map str_items junk_rows) p)) all_pos)
    as Htv by compute_done.
  destruct (@set_tiles_accepts_any_symbol sdk9 _ _ Hs Htv)
    as (_ & b' & Hset & Hat).
  exists b'. split; [exact Hset|].
  destruct (Hat (0, 0) "x") as [_ Hx]; [compute_done..|].
  destruct Hx as [Hv Hc]; [compute_done|].
  destruct (Hat (0, 1) "2") as [H2 _]; [compute_done..|].
  split_and!; [exact Hv|exact Hc|]. rewrite H2. reflexivity.
Defined.

Lemma min_choice_tile_spec_witness :
  min_choice_tile trap_filled = None ∧
  ∃ p, min_choice_tile stuck_propagated = Some p.
Proof.
  split.
  - apply (proj1 (@min_choice_tile_spec sdk9 trap_filled)). compute_done.
  - destruct (proj2 (@min_choice_tile_spec sdk9 stuck_propagated))
      as (p & _ & _ & Hp & _); [compute_done|].
    exists p. exact Hp.
Defined.

End Examples.

(** * Further properties of the code *)

(** ** What the progress flags of the two tactics mean *)

Section Flags.
Context `{SdkConfig}.

Lemma naked_step_quiet used st p :
  (naked_step used st p).1 = false →
  st.1 = false ∧ (naked_step used st p).2 = st.2 ∧
  (value (tile_at st.2 p) = UNKNOWN →
   candidates (tile_at st.2 p) ∖ used = candidates (tile_at st.2 p)).
Proof.
  unfold naked_step. case_decide as Hu; [|by intros; split_and!].
  unfold remove_candidates. case_decide as Hd; simpl.
  - intros ->. split_and!; [done| |done]. apply update_tile_same.
  - by destruct (elements _) as [|v [|w l]].
Qed.

Lemma naked_loop_quiet used l st :
  (foldl (naked_step used) st l).1 = false →
  st.1 = false ∧ (foldl (naked_step used) st l).2 = st.2 ∧
  Forall (λ p, value (tile_at st.2 p) = UNKNOWN →
               candidates (tile_at st.2 p) ∖ used
               = candidates (tile_at st.2 p)) l.
Proof.
  revert st. induction l as [|p l IH]; intros st; simpl.
  { intros Hf. by split_and!. }
  intros Hf. destruct (IH _ Hf) as (Hf1 & Hb1 & Hall).
  destruct (naked_step_quiet _ _ _ Hf1) as (Hf0 & Hb0 & Hp).
  rewrite Hb1 Hb0. rewrite Hb0 in Hall. split_and!; [done..|].
  by constructor.
Qed.

Lemma naked_groups_quiet gs st :
  (foldl naked_group st gs).1 = false →
  st.1 = false ∧ (foldl naked_group st gs).2 = st.2 ∧
  Forall (λ g,
    Forall (λ p, value (tile_at st.2 p) = UNKNOWN →
                 candidates (tile_at st.2 p)
                   ∖ list_to_set (group_values st.2 g)
                 = candidates (tile_at st.2 p)) g) gs.
Proof.
  revert st. induction gs as [|g gs IH]; intros st; simpl.
  { intros Hf. by split_and!. }
  intros Hf. destruct (IH _ Hf) as (Hf1 & Hb1 & Hall).
  destruct (naked_loop_quiet _ _ _ Hf1) as (Hf0 & Hb0 & Hg).
  rewrite Hb1. unfold naked_group at 1. rewrite Hb0.
  unfold naked_group in Hall. rewrite Hb0 in Hall.
  split_and!; [done..|]. by constructor.
Qed.

Lemma hidden_step_quiet g st v :
  (hidden_step g st v).1 = false →
  st.1 = false ∧ hidden_step g st v = st ∧
  length (filter (λ p, v ∈ candidates (tile_at st.2 p)) g) ≠ 1.
Proof.
  unfold hidden_step. destruct (filter _ g) as [|p [|q l]]; simpl; try done;
    intros Hf; by split_and!.
Qed.

Lemma hidden_loop_quiet g vs st :
  (foldl (hidden_step g) st vs).1 = false →
  st.1 = false ∧ foldl (hidden_step g) st vs = st ∧
  Forall (λ v, length (filter (λ p, v ∈ candidates (tile_at st.2 p)) g) ≠ 1)
         vs.
Proof.
  revert st. induction vs as [|v vs IH]; intros st; simpl.
  { intros Hf. by split_and!. }
  intros Hf. destruct (IH _ Hf) as (Hf1 & Hb1 & Hall).
  destruct (hidden_step_quiet _ _ _ Hf1) as (Hf0 & Hb0 & Hv).
  rewrite Hb1 Hb0. rewrite Hb0 in Hall. split_and!; [done..|].
  by constructor.
Qed.

Lemma leftovers_fold (b : Board) g (X : gset string) v :
  v ∈ foldl (λ (l : gset string) p,
               if decide (value (tile_at b p) ∈ l)
               then l ∖ {[ value (tile_at b p) ]} else l) X g
  ↔ v ∈ X ∧ ∀ p, p ∈ g → value (tile_at b p) ≠ v.
Proof.
  revert X. induction g as [|q g IH]; intros X; simpl.
  { split; [intros ?; split; [done|]; by intros ? ?%not_elem_of_nil|tauto]. }
  rewrite IH. split.
  - intros [Hv Hg]. split; [case_decide; set_solver|].
    intros p [->|Hp]%elem_of_cons; [|by apply Hg].
    case_decide; set_solver.
  - intros [Hv Hg]. split; [|intros p Hp; apply Hg; by right].
    pose proof (Hg q ltac:(by left)). case_decide; set_solver.
Qed.

(** The leftovers of a group are the symbols that no tile of the group
    holds. *)
Lemma leftovers_spec (b : Board) g v :
  v ∈ leftovers b g ↔ v ∈ CHOICES ∧ ∀ p, p ∈ g → value (tile_at b p) ≠ v.
Proof.
  unfold leftovers. rewrite leftovers_fold elem_of_list_to_set. done.
Qed.

End Flags.

Section FlagTheorems.
Context `{SdkConfig}.
Hypothesis HC : ConfigOK.

Lemma elements_order_ok : @SetOrderOK elements_order.
Proof. by intros s. Qed.

Lemma hidden_groups_quiet `{SetOrder} gs st :
  (foldl hidden_group st gs).1 = false →
  st.1 = false ∧ foldl hidden_group st gs = st ∧
  Forall (λ g,
    Forall (λ v, length (filter (λ p, v ∈ candidates (tile_at st.2 p)) g)
                 ≠ 1)
           (set_iter (leftovers st.2 g))) gs.
Proof.
  revert st. induction gs as [|g gs IH]; intros st; simpl.
  { intros Hf. by split_and!. }
  intros Hf. destruct (IH _ Hf) as (Hf1 & Hb1 & Hall).
  destruct (hidden_loop_quiet _ _ _ Hf1) as (Hf0 & Hb0 & Hg).
  rewrite Hb1. unfold hidden_group at 1. rewrite Hb0.
  unfold hidden_group in Hall. rewrite Hb0 in Hall.
  split_and!; [done..|]. by constructor.
Qed.

(** X1 -- the progress flag of naked_single is accurate.  On a board that
    satisfies the tile invariant, [naked_single] returns False exactly
    when it leaves the grid (values and candidates) as it was. *)
Theorem naked_single_false_iff_unchanged (b : Board) :
  board_ok b →
  (naked_single b).1 = false ↔ (naked_single b).2 = b.
Proof.
  intros Hb. split.
  - intros Hf. unfold naked_single in *.
    by destruct (naked_groups_quiet _ _ Hf) as (_ & ? & _).
  - intros Heq. destruct (naked_single b).1 eqn:Hf; [|done].
    destruct (naked_single_advances HC elements_order_ok b Hb)
      as (_ & _ & Hlt).
    destruct (Hlt Hf) as [?|Hless]; [done|].
    simpl in Hless. rewrite Heq in Hless. lia.
Qed.

(** X2 -- what a False from naked_single certifies.  When [naked_single]
    returns False, no UNKNOWN tile admits a value that a tile of one of
    its groups holds. *)
Theorem naked_single_false_means_pruned (b : Board) g p q :
  (naked_single b).1 = false →
  g ∈ create_groups → p ∈ g → q ∈ g →
  value (tile_at b p) = UNKNOWN → value (tile_at b q) ≠ UNKNOWN →
  value (tile_at b q) ∉ candidates (tile_at b p).
Proof.
  clear HC. intros Hf Hg Hp Hq Hu Hk Hin. unfold naked_single in Hf.
  destruct (naked_groups_quiet _ _ Hf) as (_ & _ & Hall). simpl in Hall.
  rewrite Forall_forall in Hall. specialize (Hall g Hg).
  rewrite Forall_forall in Hall. specialize (Hall p Hp Hu).
  assert (value (tile_at b q)
          ∈ (list_to_set (group_values b g) : gset string)) as Hused.
  { apply elem_of_list_to_set. unfold group_values.
    apply list_elem_of_filter. split; [done|].
    apply list_elem_of_fmap. by exists q. }
  set_solver.
Qed.

(** X3 -- the progress flag of hidden_single.  [hidden_single] returns
    False exactly when no symbol that is missing from a group is admitted
    by exactly one tile of that group, and then it leaves the grid as it
    was. *)
Theorem hidden_single_false_iff_no_single `{SetOrder} (b : Board) :
  SetOrderOK →
  ((hidden_single b).1 = false ↔
   ∀ g v, g ∈ create_groups → v ∈ CHOICES →
          (∀ p, p ∈ g → value (tile_at b p) ≠ v) →
          length (filter (λ p, v ∈ candidates (tile_at b p)) g) ≠ 1) ∧
  ((hidden_single b).1 = false → (hidden_single b).2 = b).
Proof.
  intros HO. split; [split|].
  - intros Hf g v Hg Hv Hfree. unfold hidden_single in Hf.
    destruct (hidden_groups_quiet _ _ Hf) as (_ & _ & Hall). simpl in Hall.
    rewrite Forall_forall in Hall. specialize (Hall g Hg).
    rewrite Forall_forall in Hall. apply Hall.
    rewrite (HO (leftovers b g)) elem_of_elements. by apply leftovers_spec.
  - intros Hnone.
    assert (hidden_single b = (false, b)) as ->; [|done].
    apply (hidden_single_idle HO). unfold hidden_idle.
    apply forallb_forall. intros g Hg. apply forallb_forall. intros v Hv.
    apply list_elem_of_In in Hg, Hv.
    apply elem_of_elements, leftovers_spec in Hv as [Hv Hfree].
    apply negb_true_iff, bool_decide_eq_false. by apply Hnone.
  - intros Hf. unfold hidden_single in *.
    destruct (hidden_groups_quiet _ _ Hf) as (_ & -> & _). done.
Qed.

Lemma in_range_covered p : in_range p → p ∈ concat create_groups.
Proof.
  intros [Hr Hc]. apply list_elem_of_In, in_concat.
  exists (map (λ c, (p.1, c)) (seq 0 NCOLS)). split.
  - unfold create_groups. apply in_or_app. right. apply in_or_app. left.
    apply in_map_iff. exists p.1. split; [done|]. apply in_seq. lia.
  - apply in_map_iff. exists p.2. split; [by destruct p|]. apply in_seq. lia.
Qed.

Lemma group_member_covered g p :
  g ∈ create_groups → p ∈ g → p ∈ concat create_groups.
Proof.
  intros Hg Hp. apply list_elem_of_In, in_concat. exists g.
  split; by apply list_elem_of_In.
Qed.

(** X4 -- is_complete.  [is_complete] returns True exactly when no tile of
    the matrix is UNKNOWN: the groups cover every cell. *)
Theorem is_complete_iff_all_known (b : Board) :
  is_complete b = true ↔
  ∀ p, in_range p → value (tile_at b p) ≠ UNKNOWN.
Proof.
  rewrite is_complete_spec Forall_forall. split.
  - intros Hall p Hp. by apply Hall, in_range_covered.
  - intros Hall p Hp. apply Hall.
    apply list_elem_of_In, in_concat in Hp as (g & Hg & Hp).
    apply list_elem_of_In in Hg, Hp.
    pose proof (groups_in_range HC g Hg) as Hr.
    rewrite Forall_forall in Hr. by apply Hr.
Qed.

Lemma length_size_NoDup (l : list string) :
  length l = size (list_to_set l : gset string) ↔ NoDup l.
Proof.
  clear HC. split; [|intros Hnd; by rewrite size_list_to_set].
  induction l as [|x l IH]; [constructor|]. simpl. intros Hlen.
  pose proof (size_list_to_set_le l) as Hle.
  destruct (decide (x ∈ l)) as [Hin|Hnot].
  - assert ({[x]} ∪ list_to_set l = (list_to_set l : gset string)) as Heq
      by set_solver.
    rewrite Heq in Hlen. lia.
  - rewrite size_union in Hlen; [|set_solver].
    rewrite size_singleton in Hlen. constructor; [done|]. apply IH. lia.
Qed.

(** X5 -- is_consistent.  [is_consistent] returns True exactly when, in
    every group, the values of the tiles that are not UNKNOWN are pairwise
    distinct. *)
Theorem is_consistent_iff_no_duplicate (b : Board) :
  is_consistent b = true ↔
  ∀ g, g ∈ create_groups → NoDup (group_values b g).
Proof.
  unfold is_consistent. rewrite forallb_forall. split.
  - intros Hall g Hg. apply length_size_NoDup.
    apply list_elem_of_In, Hall in Hg. by apply bool_decide_eq_true in Hg.
  - intros Hall g Hg. apply bool_decide_eq_true, length_size_NoDup.
    by apply Hall, list_elem_of_In.
Qed.

End FlagTheorems.

(** ** Complete grids, givens and candidates *)

Section Solving.
Context `{SdkConfig} `{SetOrder}.
Hypothesis HC : ConfigOK.
Hypothesis HO : SetOrderOK.

Let Hunk : UNKNOWN ∉ CHOICES := unknown_not_choice HC.

Lemma hidden_single_no_single (b : Board) :
  (∀ g v, g ∈ create_groups → v ∈ CHOICES →
          (∀ p, p ∈ g → value (tile_at b p) ≠ v) →
          length (filter (λ p, v ∈ candidates (tile_at b p)) g) ≠ 1) →
  hidden_single b = (false, b).
Proof.
  intros Hnone. apply (hidden_single_idle HO). unfold hidden_idle.
  apply forallb_forall. intros g Hg. apply forallb_forall. intros v Hv.
  apply list_elem_of_In in Hg, Hv.
  apply elem_of_elements, leftovers_spec in Hv as [Hv Hfree].
  apply negb_true_iff, bool_decide_eq_false. by apply Hnone.
Qed.

Lemma naked_single_complete (b : Board) :
  is_complete b = true → naked_single b = (false, b).
Proof.
  intros Hc. apply is_complete_spec in Hc. rewrite Forall_forall in Hc.
  unfold naked_single.
  apply (foldl_invariant (λ st, st = (false, b)) (λ g, g ∈ create_groups));
    [done|by apply Forall_forall|].
  intros st g -> Hg. unfold naked_group. simpl.
  apply (foldl_invariant (λ st, st = (false, b)) (λ p, p ∈ g));
    [done|by apply Forall_forall|].
  intros st p -> Hp. unfold naked_step. simpl.
  rewrite decide_False //. by eapply Hc, group_member_covered.
Qed.

Lemma hidden_single_complete (b : Board) :
  board_ok b → is_complete b = true → hidden_single b = (false, b).
Proof.
  intros Hb Hc. apply is_complete_spec in Hc. rewrite Forall_forall in Hc.
  apply hidden_single_no_single. intros g v Hg Hv Hfree.
  pose proof (groups_in_range HC g Hg) as Hr. rewrite Forall_forall in Hr.
  destruct (filter _ g) as [|p l] eqn:Hf; [done|]. exfalso.
  assert (p ∈ filter (λ p, v ∈ candidates (tile_at b p)) g) as Hp
    by (rewrite Hf; by left).
  apply list_elem_of_filter in Hp as [Hadm Hp].
  assert (value (tile_at b p) ≠ UNKNOWN) as Hk
    by (by eapply Hc, group_member_covered).
  destruct (tile_ok_known _ (board_ok_at _ _ Hb (Hr p Hp)) Hk) as [_ Hcand].
  rewrite Hcand in Hadm. apply elem_of_singleton in Hadm.
  by apply (Hfree p Hp).
Qed.

(** X6 -- solve on a complete grid.  On a grid without UNKNOWN tile that
    satisfies the tile invariant, [propagate] changes nothing and [solve]
    returns True with the grid as it was, whether or not the grid is
    consistent. *)
Theorem solve_on_complete_grid (b : Board) (fuel : nat) :
  board_ok b → is_complete b = true → 1 ≤ fuel →
  propagate fuel b = Some b ∧ solve fuel b = Some (true, b).
Proof.
  intros Hb Hc Hfuel. destruct fuel as [|fuel]; [lia|].
  assert (propagate (S fuel) b = Some b) as Hp.
  { simpl. rewrite (naked_single_complete b Hc) /=.
    by rewrite (hidden_single_complete b Hb Hc). }
  split; [done|]. cbn [solve]. rewrite Hp /=. by rewrite Hc.
Qed.

(** X7 -- a True result is a complete grid.  When [solve] returns True,
    every tile of the grid holds a symbol of CHOICES (and its candidate
    set is that symbol alone). *)
Theorem solve_true_all_known (fuel : nat) (b b' : Board) :
  board_ok b → solve fuel b = Some (true, b') →
  ∀ p, in_range p →
       value (tile_at b' p) ∈ CHOICES ∧
       candidates (tile_at b' p) = {[ value (tile_at b' p) ]}.
Proof.
  intros Hb Hs p Hp.
  destruct (solve_spec HC HO _ _ _ Hb Hs) as (Hb' & Hc & _). simpl in *.
  specialize (Hc eq_refl). apply is_complete_spec in Hc.
  rewrite Forall_forall in Hc.
  apply tile_ok_known; [by apply board_ok_at|].
  by apply Hc, in_range_covered.
Qed.

Lemma values_kept_trans (b1 b2 b3 : Board) :
  values_kept b1 b2 → values_kept b2 b3 → values_kept b1 b3.
Proof.
  intros H12 H23 p Hp Hk. rewrite -(H12 p Hp Hk). apply H23; [done|].
  by rewrite (H12 p Hp Hk).
Qed.

Lemma values_kept_guess (b b1 : Board) p v :
  same_values b b1 → in_range p → value (tile_at b1 p) = UNKNOWN →
  values_kept b1 (update_tile b p (λ t, set_value t v)).
Proof.
  intros Hsame Hp Hu q Hq Hk. destruct (decide (p = q)) as [->|Hne];
    [done|]. by rewrite tile_at_update_ne // (Hsame q Hq).
Qed.

Lemma try_values_kept rec saved p vals b b1 r :
  (∀ b r, board_ok b → rec b = Some r →
          board_ok r.2 ∧ values_kept b r.2) →
  board_ok b1 → saved = as_list b1 → in_range p →
  value (tile_at b1 p) = UNKNOWN → board_ok b → same_values b b1 →
  try_values rec saved p vals b = Some r → values_kept b1 r.2.
Proof.
  intros Hrec Hb1 -> Hp Hu. revert b.
  induction vals as [|v vals IH]; intros b Hb Hsame; simpl.
  { intros [= <-]. intros q Hq Hk. simpl. by rewrite (Hsame q Hq). }
  assert (board_ok (update_tile b p (λ t, set_value t v))) as Hg.
  { apply board_ok_update; [done|]. by apply set_value_ok. }
  destruct (rec _) as [[[] bf]|] eqn:Hr; [| |done].
  - intros [= <-]. destruct (Hrec _ _ Hg Hr) as [_ Hkept]. simpl in *.
    eapply values_kept_trans; [|exact Hkept]. by apply values_kept_guess.
  - destruct (Hrec _ _ Hg Hr) as [[Hsf _] _].
    destruct (restore_spec HC bf b1 Hsf Hb1) as (b' & -> & Hb' & Hv' & _).
    simpl. by apply IH.
Qed.

Lemma solve_kept fuel b r :
  board_ok b → solve fuel b = Some r → board_ok r.2 ∧ values_kept b r.2.
Proof.
  revert b r. induction fuel as [|fuel IH]; intros b r Hb; [done|].
  intros Hs. split; [by destruct (solve_spec HC HO _ _ _ Hb Hs)|].
  revert Hs. cbn [solve].
  destruct (propagate (S fuel) b) as [b1|] eqn:Hprop; [|done]. simpl.
  pose proof (propagate_narrows HC HO _ _ _ Hb Hprop) as (Hb1 & _ & _ & Hk).
  assert (values_kept b b1) as Hkept.
  { intros q Hq Hne. by rewrite (Hk q Hq Hne). }
  destruct (is_complete b1) eqn:Hc; [by intros [= <-]|].
  destruct (is_consistent b1); simpl; [|by intros [= <-]].
  destruct (min_choice_some HC HO b1 Hc) as (p & -> & Hp & Hu). simpl.
  intros Htry. eapply values_kept_trans; [exact Hkept|].
  eapply try_values_kept; try done.
Qed.

(** X8 -- givens are never overwritten.  Whatever [solve] returns, every
    tile that held a value when it was called holds the same value
    afterwards. *)
Theorem solve_keeps_givens (fuel : nat) (b : Board) (r : bool * Board) :
  board_ok b → solve fuel b = Some r →
  ∀ p, in_range p → value (tile_at b p) ≠ UNKNOWN →
       value (tile_at r.2 p) = value (tile_at b p).
Proof.
  intros Hb Hs. by destruct (solve_kept _ _ _ Hb Hs) as [_ Hkept].
Qed.

End Solving.

(** ** Propagation only crosses candidates off *)

Section Shrinking.
Context `{SdkConfig} `{SetOrder}.
Hypothesis HC : ConfigOK.
Hypothesis HO : SetOrderOK.

Let Hunk : UNKNOWN ∉ CHOICES := unknown_not_choice HC.

Lemma shrinks_refl (b : Board) : shrinks b b.
Proof. by intros p Hp. Qed.

Lemma shrinks_trans (b1 b2 b3 : Board) :
  shrinks b1 b2 → shrinks b2 b3 → shrinks b1 b3.
Proof.
  intros H12 H23 p Hp. destruct (H12 p Hp) as (? & ? & ?).
  destruct (H23 p Hp) as (? & ? & ?). split_and!; [set_solver|congruence..].
Qed.

Lemma shrinks_step (b : Board) p t' :
  shape b → in_range p →
  candidates t' ⊆ candidates (tile_at b p) →
  row t' = row (tile_at b p) → col t' = col (tile_at b p) →
  shrinks b (update_tile b p (λ _, t')).
Proof.
  intros Hs Hp Hc Hrow Hcol q Hq. destruct (decide (p = q)) as [<-|Hne].
  - by rewrite tile_at_update_eq.
  - by rewrite tile_at_update_ne.
Qed.

Lemma remove_candidates_coords t used :
  row (remove_candidates t used).2 = row t ∧
  col (remove_candidates t used).2 = col t.
Proof.
  unfold remove_candidates. case_decide; [done|].
  destruct (elements _) as [|v [|w l]]; simpl; try done.
  unfold set_value. by case_decide.
Qed.

Lemma set_value_coords t v :
  row (set_value t v) = row t ∧ col (set_value t v) = col t.
Proof. unfold set_value. by case_decide. Qed.

Lemma naked_step_shrinks used st p :
  board_ok st.2 → in_range p → shrinks st.2 (naked_step used st p).2.
Proof.
  intros Hb Hp. unfold naked_step. case_decide as Hu;
    [|apply shrinks_refl].
  pose proof (board_ok_at _ _ Hb Hp) as Hok.
  destruct (remove_candidates_unknown Hunk _ used Hok Hu) as (_ & Hc & _).
  destruct (remove_candidates_coords (tile_at st.2 p) used) as [Hrow Hcol].
  simpl. apply shrinks_step; [apply Hb|done| |done|done].
  rewrite Hc. set_solver.
Qed.

Lemma hidden_step_shrinks g st v :
  board_ok st.2 → Forall in_range g → v ∈ CHOICES →
  shrinks st.2 (hidden_step g st v).2.
Proof.
  intros Hb Hg Hv. unfold hidden_step.
  destruct (filter _ g) as [|p [|q l]] eqn:Hf; try apply shrinks_refl.
  assert (p ∈ filter (λ p, v ∈ candidates (tile_at st.2 p)) g) as Hp
    by (rewrite Hf; by left).
  apply list_elem_of_filter in Hp as [Hadm Hpg].
  rewrite Forall_forall in Hg.
  destruct (set_value_coords (tile_at st.2 p) v) as [Hrow Hcol].
  simpl. rewrite update_tile_const.
  apply shrinks_step; [apply Hb|by apply Hg| |done|done].
  rewrite set_value_choice //=. set_solver.
Qed.

(** The relation kept by every loop of the two tactics. *)
Lemma loop_shrinks {B} (P : B → Prop) (f : bool * Board → B → bool * Board)
    (l : list B) (st : bool * Board) :
  (∀ a x, board_ok a.2 → P x →
          narrows a.2 (f a x).2 ∧ shrinks a.2 (f a x).2) →
  board_ok st.2 → Forall P l →
  narrows st.2 (foldl f st l).2 ∧ shrinks st.2 (foldl f st l).2.
Proof.
  intros Hstep Hb Hl.
  apply (foldl_related (λ a c, narrows a.2 c.2 ∧ shrinks a.2 c.2)
           (λ a, board_ok a.2) P).
  - intros a Ha. split; [by apply narrows_refl|apply shrinks_refl].
  - intros a c d [Hn1 Hs1] [Hn2 Hs2].
    split; [by eapply narrows_trans|by eapply shrinks_trans].
  - by intros a c _ [[? _] _].
  - done.
  - done.
  - done.
Qed.

Lemma naked_single_shrinks (b : Board) :
  board_ok b →
  narrows b (naked_single b).2 ∧ shrinks b (naked_single b).2.
Proof.
  intros Hb. unfold naked_single.
  apply (loop_shrinks (Forall in_range) naked_group create_groups (false, b));
    [|done|by apply groups_all_in_range].
  intros a g Ha Hg. unfold naked_group.
  apply (loop_shrinks in_range); [|done..].
  intros c p Hc Hp. split; [|by apply naked_step_shrinks].
  by destruct (naked_step_advances HC HO (list_to_set (group_values a.2 g))
                 c p Hc Hp).
Qed.

Lemma hidden_single_shrinks (b : Board) :
  board_ok b →
  narrows b (hidden_single b).2 ∧ shrinks b (hidden_single b).2.
Proof.
  intros Hb. unfold hidden_single.
  apply (loop_shrinks (Forall in_range) hidden_group create_groups
           (false, b)); [|done|by apply groups_all_in_range].
  intros a g Ha Hg. unfold hidden_group.
  apply (loop_shrinks (λ v, v ∈ CHOICES)); [|done|].
  - intros c v Hc Hv.
    split; [by apply (hidden_step_narrows HC HO)|].
    by apply hidden_step_shrinks.
  - apply Forall_forall. intros v Hv. apply (set_iter_elem HO) in Hv.
    by eapply leftovers_choices.
Qed.

Lemma propagate_shrinks fuel (b b' : Board) :
  board_ok b → propagate fuel b = Some b' → shrinks b b'.
Proof.
  revert b. induction fuel as [|fuel IH]; intros b Hb; simpl; [done|].
  destruct (naked_single_shrinks b Hb) as [[Hnb _] Hns].
  destruct (hidden_single_shrinks _ Hnb) as [[Hhb _] Hhs].
  pose proof (shrinks_trans _ _ _ Hns Hhs) as Hround.
  destruct (naked_single b).1.
  - intros Hp. eapply shrinks_trans; [exact Hround|]. by apply IH.
  - by intros [= <-].
Qed.

(** X9 -- propagation only narrows the grid.  [propagate] never adds a
    candidate to a tile, never touches a tile that already has a value,
    leaves every tile at its coordinates, and every value it places was a
    candidate of the tile. *)
Theorem propagate_only_crosses_off (fuel : nat) (b b' : Board) :
  board_ok b → propagate fuel b = Some b' →
  ∀ p, in_range p →
       candidates (tile_at b' p) ⊆ candidates (tile_at b p) ∧
       row (tile_at b' p) = row (tile_at b p) ∧
       col (tile_at b' p) = col (tile_at b p) ∧
       (value (tile_at b p) ≠ UNKNOWN → tile_at b' p = tile_at b p) ∧
       (value (tile_at b' p) ≠ UNKNOWN →
        value (tile_at b' p) ∈ candidates (tile_at b p)).
Proof.
  intros Hb Hp p Hr.
  destruct (propagate_shrinks _ _ _ Hb Hp p Hr) as (Hc & Hrow & Hcol).
  destruct (propagate_narrows HC HO _ _ _ Hb Hp) as (Hb' & _ & _ & Hk).
  split_and!; [done..|by apply Hk|].
  intros Hknown.
  destruct (tile_ok_known _ (board_ok_at _ _ Hb' Hr) Hknown) as [_ Hcand].
  rewrite Hcand in Hc. set_solver.
Qed.

(** X10 -- termination.  On a board that satisfies the tile invariant the
    loop of [propagate] ends within one round more than the number of
    candidates on the board, and [solve] returns; more fuel than that
    gives the same result. *)
Theorem solve_and_propagate_return (b : Board) (fuel : nat) :
  board_ok b → solve_fuel b ≤ fuel →
  (∃ b', propagate (S (cand_sum b)) b = Some b' ∧
         ∀ fuel', cand_sum b < fuel' → propagate fuel' b = Some b') ∧
  (∃ r, solve fuel b = Some r ∧
        ∀ fuel', fuel ≤ fuel' → solve fuel' b = Some r).
Proof.
  intros Hb Hfuel. unfold solve_fuel in Hfuel. split.
  - destruct (propagate_terminates HC HO (S (cand_sum b)) b Hb) as [b' Hp];
      [lia|].
    exists b'. split; [done|]. intros fuel' Hlt.
    by apply (propagate_fuel_mono (S (cand_sum b))); [|lia].
  - destruct (solve_terminates HC HO fuel b Hb) as [r Hs]; [lia|].
    exists r. split; [done|]. intros fuel' Hle.
    by apply (solve_fuel_mono fuel).
Qed.

End Shrinking.

(** ** Completions *)

Section ConsistentCompletion.
Context `{SdkConfig}.
Hypothesis HC : ConfigOK.

Lemma group_values_agree (b : Board) sol g :
  agrees sol b → Forall in_range g →
  group_values b g
  = sol <$> filter (λ p, value (tile_at b p) ≠ UNKNOWN) g.
Proof.
  intros Hag. unfold agrees in Hag. rewrite Forall_forall in Hag.
  unfold group_values. induction 1 as [|p g Hp _ IH]; [done|].
  rewrite /= !filter_cons. case_decide as Hk; [|done].
  rewrite fmap_cons. f_equal; [|done]. symmetry.
  apply Hag; [by apply all_pos_in_range|done].
Qed.

(** X11 -- a grid with a valid completion is consistent.  If the values
    on the board extend to an assignment in which every group holds each
    symbol exactly once, [is_consistent] returns True. *)
Theorem completion_implies_consistent (b : Board) (sol : pos → string) :
  valid_completion sol b → is_consistent b = true.
Proof.
  intros [Hsol Hag]. unfold is_consistent. apply forallb_forall.
  intros g Hg. apply list_elem_of_In in Hg.
  apply bool_decide_eq_true. symmetry. apply size_list_to_set.
  rewrite (group_values_agree b sol g Hag); [|by apply groups_in_range].
  pose proof (@latin_NoDup _ elements_order HC elements_order_ok sol Hsol
                g Hg) as Hnd.
  apply NoDup_fmap_2_strong.
  - intros p q Hp%list_elem_of_filter Hq%list_elem_of_filter Heq.
    eapply (@latin_inj _ elements_order HC elements_order_ok sol Hsol g);
      naive_solver.
  - apply NoDup_filter. by eapply NoDup_fmap_1.
Qed.

End ConsistentCompletion.

Section Completions.
Context `{SdkConfig} `{SetOrder}.
Hypothesis HC : ConfigOK.
Hypothesis HO : SetOrderOK.

(** X12 -- propagation respects every completion.  If every tile of the
    board admits the value that a solved grid [sol] gives it, the same
    holds after [propagate], and every value that [propagate] has placed
    is the value of [sol]: no valid completion is ever ruled out. *)
Theorem propagate_keeps_completions (fuel : nat) (b b' : Board)
    (sol : pos → string) :
  board_ok b → latin sol →
  Forall (λ p, sol p ∈ candidates (tile_at b p)) all_pos →
  propagate fuel b = Some b' →
  Forall (λ p, sol p ∈ candidates (tile_at b' p)) all_pos ∧
  valid_completion sol b'.
Proof.
  intros Hb Hsol Hall Hp.
  assert (admits sol b) as Ha.
  { intros p Hr. rewrite Forall_forall in Hall.
    by apply Hall, all_pos_in_range. }
  pose proof (propagate_admits HC HO sol Hsol _ _ _ Hb Ha Hp) as Ha'.
  pose proof (propagate_narrows HC HO _ _ _ Hb Hp) as [Hb' _].
  split.
  { apply Forall_forall. intros p Hr. by apply Ha', all_pos_in_range. }
  split; [done|]. unfold agrees. apply Forall_forall.
  intros p Hp' Hk. apply all_pos_in_range in Hp'. symmetry.
  by apply (admits_known HC HO sol Hsol).
Qed.

End Completions.

(** ** Loading a puzzle *)

Section Loading.
Context `{SdkConfig}.
Hypothesis HC : ConfigOK.

Let Hunk : UNKNOWN ∉ CHOICES := unknown_not_choice HC.

Lemma shape_empty_board : shape empty_board.
Proof.
  clear HC Hunk. unfold shape, empty_board. split.
  - by rewrite length_map length_seq.
  - apply Forall_forall. intros r Hr.
    apply list_elem_of_In, in_map_iff in Hr as (i & <- & _).
    by rewrite length_map length_seq.
Qed.

Lemma tile_at_empty_board p :
  in_range p → tile_at empty_board p = new_tile p.1 p.2 UNKNOWN.
Proof.
  clear HC Hunk. intros [Hr Hc]. unfold tile_at, empty_board.
  change (map ?f ?l) with (f <$> l).
  rewrite list_lookup_fmap lookup_seq_lt //=.
  change (map ?f ?l) with (f <$> l).
  by rewrite list_lookup_fmap lookup_seq_lt.
Qed.

(** X13 -- the board of the constructor.  [Board()] builds [NROWS] rows
    of [NCOLS] tiles; every tile is UNKNOWN, admits all of CHOICES and
    carries its own coordinates. *)
Theorem new_board_is_blank :
  fresh empty_board ∧
  ∀ p, in_range p →
       tile_at empty_board p
       = {| row := p.1; col := p.2; value := UNKNOWN;
            candidates := list_to_set CHOICES |}.
Proof.
  assert (∀ p, in_range p →
            tile_at empty_board p
            = {| row := p.1; col := p.2; value := UNKNOWN;
                 candidates := list_to_set CHOICES |}) as Hat.
  { intros p Hp. rewrite tile_at_empty_board //. unfold new_tile.
    by rewrite set_value_other. }
  split; [|done]. pose proof shape_empty_board as Hs.
  split; [split; [done|]|]; apply board_forall_intro; try done.
  - intros p Hp. rewrite tile_at_empty_board //. by apply set_value_ok.
  - intros p Hp _. by rewrite Hat.
Qed.

Lemma concat_str_items (s : string) : String.concat "" (str_items s) = s.
Proof.
  induction s as [|c s IH]; [done|].
  change (str_items (String c s)) with (String c "" :: str_items s).
  destruct s as [|d s]; [done|].
  change (str_items (String d s)) with (String d "" :: str_items s) in *.
  change (String.concat "" (String c "" :: String d "" :: str_items s))
    with (String c (String.concat "" (String d "" :: str_items s))).
  by rewrite IH.
Qed.

Lemma well_formed_sym_at rows p :
  well_formed_rows rows → in_range p →
  ∃ s v, rows !! p.1 = Some s ∧ str_items s !! p.2 = Some v ∧
         sym_at (map str_items rows) p = Some v ∧
         (v = UNKNOWN ∨ v ∈ CHOICES).
Proof.
  intros [Hlen Hrows] [Hr Hc].
  destruct (lookup_lt_is_Some_2 rows p.1) as [s Hs]; [lia|].
  pose proof (Forall_lookup_1 _ _ _ _ Hrows Hs) as [Hl Hsyms].
  destruct (lookup_lt_is_Some_2 (str_items s) p.2) as [v Hv]; [lia|].
  exists s, v. split_and!; [done..| |].
  - unfold sym_at. change (map ?f ?l) with (f <$> l).
    by rewrite list_lookup_fmap Hs /=.
  - by apply (Forall_lookup_1 _ _ _ _ Hsyms Hv).
Qed.

(** X14 -- load and save round trip.  On an input in the documented
    format, [set_tiles] on a new board succeeds, every UNKNOWN tile of the
    result admits all of CHOICES, and [as_list] gives the input back. *)
Theorem load_as_list_round_trip (rows : list string) :
  well_formed_rows rows →
  ∃ b, load rows = Some b ∧ fresh b ∧ as_list b = rows.
Proof.
  intros Hwf. pose proof shape_empty_board as Hs0.
  destruct (set_tiles_spec empty_board (map str_items rows) Hs0)
    as (b & Hload & Hs & Hat).
  { intros p Hp.
    destruct (well_formed_sym_at rows p Hwf Hp) as (s & v & _ & _ & -> & _).
    by eexists. }
  exists b. split; [done|]. split.
  - split; [split; [done|]|]; apply board_forall_intro; try done.
    + intros p Hp.
      destruct (well_formed_sym_at rows p Hwf Hp) as (s & v & _ & _ & Hv & _).
      rewrite (Hat p v Hp Hv). by apply set_value_ok.
    + intros p Hp.
      destruct (well_formed_sym_at rows p Hwf Hp) as (s & v & _ & _ & Hv & _).
      rewrite (Hat p v Hp Hv). unfold set_value. case_decide; [|done].
      simpl. intros ->. done.
  - destruct Hs as [Hn Hcols]. destruct Hwf as [Hlen Hrows].
    apply list_eq_same_length with NROWS; [done| |].
    { unfold as_list. by rewrite length_map. }
    intros i x s Hi Hx Hrow. unfold as_list in Hx.
    change (map ?f ?l) with (f <$> l) in Hx.
    rewrite list_lookup_fmap in Hx.
    destruct (b !! i) as [r|] eqn:Hr; [|done]. simpl in Hx.
    injection Hx as <-.
    pose proof (Forall_lookup_1 _ _ _ _ Hcols Hr) as Hlr. simpl in Hlr.
    pose proof (Forall_lookup_1 _ _ _ _ Hrows Hrow) as [Hls Hsyms].
    transitivity (String.concat "" (str_items s));
      [|apply concat_str_items]. f_equal.
    apply list_eq_same_length with NCOLS; [done|by rewrite length_map|].
    intros j y v Hj Hy Hv.
    change (map ?f ?l) with (f <$> l) in Hy.
    rewrite list_lookup_fmap in Hy.
    destruct (r !! j) as [t|] eqn:Ht; [|done]. simpl in Hy.
    injection Hy as <-.
    rewrite -(tile_at_lookup b (i, j) r t Hr Ht).
    assert (sym_at (map str_items rows) (i, j) = Some v) as Hsym.
    { unfold sym_at. change (map ?f ?l) with (f <$> l).
      by rewrite list_lookup_fmap Hrow. }
    rewrite (Hat (i, j) v (conj Hi Hj) Hsym).
    apply value_set_value; [done|].
    by apply (Forall_lookup_1 _ _ _ _ Hsyms Hv).
Qed.

Lemma set_tiles_row_none (tile_values : list (list string)) row_num cols :
  foldl (λ ob col_num,
           b ← ob;
           v ← tile_values !! row_num ≫= (.!! col_num);
           Some (update_tile b (row_num, col_num) (λ t, set_value t v)))
        None cols = None.
Proof. clear HC Hunk. by induction cols. Qed.

Lemma set_tiles_row_short (tile_values : list (list string)) row_num cols
    c ob :
  c ∈ cols → tile_values !! row_num ≫= (.!! c) = None →
  foldl (λ ob col_num,
           b ← ob;
           v ← tile_values !! row_num ≫= (.!! col_num);
           Some (update_tile b (row_num, col_num) (λ t, set_value t v)))
        ob cols = None.
Proof.
  clear HC Hunk. intros Hc Hnone. revert ob.
  induction cols as [|c' cols IH]; intros ob; [by apply not_elem_of_nil in Hc|].
  simpl. apply elem_of_cons in Hc as [<-|Hc]; [|by apply IH].
  rewrite Hnone. destruct ob; simpl; apply set_tiles_row_none.
Qed.

(** X15 -- a short input raises.  If the input of [set_tiles] has no
    symbol for some cell of the board (a missing row or a row that is too
    short), [set_tiles] ends in the IndexError, whatever the board. *)
Theorem set_tiles_short_input (b : Board)
    (tile_values : list (list string)) p :
  in_range p → sym_at tile_values p = None →
  set_tiles b tile_values = None.
Proof.
  clear HC Hunk. intros [Hr Hc] Hnone. unfold set_tiles.
  assert (p.1 ∈ seq 0 NROWS) as Hrow by (apply elem_of_seq; lia).
  assert (p.2 ∈ seq 0 NCOLS) as Hcol by (apply elem_of_seq; lia).
  generalize (Some b). revert Hrow.
  induction (seq 0 NROWS) as [|r rows IH]; intros Hrow ob;
    [by apply not_elem_of_nil in Hrow|].
  simpl. apply elem_of_cons in Hrow as [<-|Hrow]; [|by apply IH].
  rewrite (set_tiles_row_short tile_values p.1 _ p.2 ob Hcol Hnone).
  clear. induction rows as [|r rows IH]; [done|]. simpl.
  by rewrite set_tiles_row_none.
Qed.

(** X16 -- remove_candidates twice.  Removing the same used values from a
    tile a second time changes nothing and returns False. *)
Theorem remove_candidates_twice (t : Tile) (used : gset string) :
  candidates t ⊆ list_to_set CHOICES →
  remove_candidates (remove_candidates t used).2 used
  = (false, (remove_candidates t used).2).
Proof.
  clear HC Hunk. intros Hsub. unfold remove_candidates at 2 3.
  case_decide as Hd; simpl.
  { unfold remove_candidates. by rewrite decide_True. }
  destruct (elements (candidates t ∖ used)) as [|v [|w l]] eqn:He; simpl.
  - unfold remove_candidates. simpl. rewrite decide_True //. set_solver.
  - apply elements_one in He.
    assert (v ∈ CHOICES) as Hv.
    { apply (elem_of_list_to_set (C:=gset string)). set_solver. }
    rewrite set_value_choice //. unfold remove_candidates. simpl.
    rewrite decide_True //. set_solver.
  - unfold remove_candidates. simpl. rewrite decide_True //. set_solver.
Qed.

End Loading.

(** ** The groups *)

Section GroupStructure.
Context `{SdkConfig}.
Hypothesis HC : ConfigOK.

Lemma filter_none {A} (P : A → Prop) `{!∀ x, Decision (P x)} (l : list A) :
  (∀ y, y ∈ l → ¬ P y) → filter P l = [].
Proof.
  clear HC. induction l as [|y l IH]; intros Hno; [done|].
  rewrite filter_cons decide_False; [|apply Hno; by left].
  apply IH. intros z Hz. apply Hno. by right.
Qed.

Lemma filter_one {A} (P : A → Prop) `{!∀ x, Decision (P x)} (l : list A) x :
  NoDup l → x ∈ l → P x → (∀ y, y ∈ l → P y → y = x) →
  length (filter P l) = 1.
Proof.
  clear HC. induction 1 as [|y l Hy Hnd IH]; intros Hx HPx Huniq;
    [by apply not_elem_of_nil in Hx|].
  rewrite filter_cons. apply elem_of_cons in Hx as [->|Hx].
  - rewrite decide_True // filter_none //.
    intros z Hz HPz. assert (z = y) as -> by (apply Huniq; [by right|done]).
    done.
  - assert (y ≠ x) as Hne by (by intros ->).
    rewrite decide_False; [|intros HPy; apply Hne, Huniq; [by left|done]].
    apply IH; [done..|]. intros z Hz. apply Huniq. by right.
Qed.

Lemma filter_map_length {A B} (P : B → Prop) `{!∀ x, Decision (P x)}
    (f : A → B) (l : list A) :
  length (filter P (map f l)) = length (filter (λ x, P (f x)) l).
Proof.
  clear HC. induction l as [|x l IH]; [done|]. simpl.
  rewrite !filter_cons. case_decide; simpl; by rewrite IH.
Qed.

Lemma filter_flat_map_one {A B} (P : B → Prop) `{!∀ x, Decision (P x)}
    (f : A → list B) (l : list A) x :
  NoDup l → x ∈ l → length (filter P (f x)) = 1 →
  (∀ y, y ∈ l → y ≠ x → filter P (f y) = []) →
  length (filter P (flat_map f l)) = 1.
Proof.
  clear HC. induction 1 as [|y l Hy Hnd IH]; intros Hx Hone Hrest;
    [by apply not_elem_of_nil in Hx|].
  simpl. rewrite filter_app length_app.
  apply elem_of_cons in Hx as [->|Hx].
  - rewrite Hone.
    assert (filter P (flat_map f l) = []) as ->; [|done].
    apply filter_none. intros z Hz HPz.
    apply list_elem_of_In, in_flat_map in Hz as (w & Hw & Hz).
    apply list_elem_of_In in Hw, Hz.
    assert (w ≠ y) as Hne by (by intros ->).
    pose proof (Hrest w ltac:(by right) Hne) as Hnil.
    assert (z ∈ filter P (f w)) as Hin by (by apply list_elem_of_filter).
    rewrite Hnil in Hin. by apply not_elem_of_nil in Hin.
  - assert (y ≠ x) as Hne by (by intros ->).
    rewrite (Hrest y ltac:(by left) Hne) /=.
    apply IH; [done..|]. intros z Hz. apply Hrest. by right.
Qed.

Lemma block_group_elem br bc p :
  p ∈ block_group br bc ↔
  ∃ r c, r < ROOT ∧ c < ROOT ∧ p = (ROOT * br + r, ROOT * bc + c).
Proof.
  clear HC. unfold block_group. rewrite list_elem_of_In in_flat_map. split.
  - intros (r & Hr & Hp). apply in_map_iff in Hp as (c & <- & Hc).
    apply in_seq in Hr, Hc. exists r, c. split_and!; [lia..|done].
  - intros (r & c & Hr & Hc & ->). exists r. split; [apply in_seq; lia|].
    apply in_map_iff. exists c. split; [done|apply in_seq; lia].
Qed.

Lemma block_of_cell br bc p :
  br < ROOT → bc < ROOT →
  p ∈ block_group br bc ↔
  in_range p ∧ br = p.1 / ROOT ∧ bc = p.2 / ROOT.
Proof.
  intros Hbr Hbc. rewrite block_group_elem.
  unfold in_range. rewrite (nrows_square HC) (ncols_square HC). split.
  - intros (r & c & Hr & Hc & ->). simpl. split_and!; [nia..| |].
    + apply (Nat.div_unique _ _ _ r); lia.
    + apply (Nat.div_unique _ _ _ c); lia.
  - intros ([Hr Hc] & -> & ->).
    assert (ROOT ≠ 0) as Hpos by lia.
    exists (p.1 mod ROOT), (p.2 mod ROOT).
    pose proof (Nat.mod_upper_bound p.1 ROOT Hpos).
    pose proof (Nat.mod_upper_bound p.2 ROOT Hpos).
    split_and!; [done..|].
    rewrite -!Nat.div_mod_eq. by destruct p.
Qed.

Lemma block_group_NoDup br bc : NoDup (block_group br bc).
Proof.
  clear HC. unfold block_group.
  change (flat_map ?f ?l) with (l ≫= f).
  apply NoDup_bind; [| |apply NoDup_seq].
  - intros r1 r2 p _ _ Hp1 Hp2.
    apply list_elem_of_In, in_map_iff in Hp1 as (c1 & <- & _).
    apply list_elem_of_In, in_map_iff in Hp2 as (c2 & Heq & _).
    injection Heq as Hr _. lia.
  - intros r _. change (map ?f ?l) with (f <$> l).
    apply NoDup_fmap_2; [|apply NoDup_seq].
    intros c1 c2 Heq. injection Heq as Hc. lia.
Qed.

Lemma flat_map_length_uniform {A B} (f : A → list B) (l : list A) n :
  (∀ x, length (f x) = n) → length (flat_map f l) = length l * n.
Proof.
  clear HC. intros Hf. induction l as [|x l IH]; [done|]. simpl.
  by rewrite length_app Hf IH.
Qed.

Lemma block_group_length br bc : length (block_group br bc) = ROOT * ROOT.
Proof.
  clear HC. unfold block_group.
  rewrite (flat_map_length_uniform _ _ ROOT); [by rewrite length_seq|].
  intros r. by rewrite length_map length_seq.
Qed.

Lemma group_length g : g ∈ create_groups → length g = ROOT * ROOT.
Proof.
  unfold create_groups. rewrite !elem_of_app. intros [Hg|[Hg|Hg]].
  - apply list_elem_of_In, in_flat_map in Hg as (br & _ & Hg).
    apply in_map_iff in Hg as (bc & <- & _). apply block_group_length.
  - apply list_elem_of_In, in_map_iff in Hg as (r & <- & _).
    rewrite length_map length_seq. apply (ncols_square HC).
  - apply list_elem_of_In, in_map_iff in Hg as (c & <- & _).
    rewrite length_map length_seq. apply (nrows_square HC).
Qed.

(** X17 -- the groups.  [create_groups] builds ROOT*ROOT blocks, NROWS
    rows and NCOLS columns; each group lists ROOT*ROOT cells of the
    board without repetition, and every cell of the board belongs to
    exactly three groups. *)
Theorem create_groups_structure :
  length create_groups = ROOT * ROOT + NROWS + NCOLS ∧
  Forall (λ g, length g = ROOT * ROOT ∧ NoDup g ∧ Forall in_range g)
         create_groups ∧
  ∀ p, in_range p → length (filter (λ g, p ∈ g) create_groups) = 3.
Proof.
  split_and!.
  - unfold create_groups. rewrite !length_app !length_map !length_seq.
    rewrite (flat_map_length_uniform _ _ ROOT);
      [rewrite length_seq; lia|].
    intros br. by rewrite length_map length_seq.
  - apply Forall_forall. intros g Hg.
    split_and!; [| |by apply groups_in_range].
    + unfold create_groups in Hg.
      rewrite !elem_of_app in Hg. destruct Hg as [Hg|[Hg|Hg]].
      * apply list_elem_of_In, in_flat_map in Hg as (br & _ & Hg).
        apply in_map_iff in Hg as (bc & <- & _). apply block_group_length.
      * apply list_elem_of_In, in_map_iff in Hg as (r & <- & _).
        rewrite length_map length_seq. apply (ncols_square HC).
      * apply list_elem_of_In, in_map_iff in Hg as (c & <- & _).
        rewrite length_map length_seq. apply (nrows_square HC).
    + unfold create_groups in Hg.
      rewrite !elem_of_app in Hg. destruct Hg as [Hg|[Hg|Hg]].
      * apply list_elem_of_In, in_flat_map in Hg as (br & _ & Hg).
        apply in_map_iff in Hg as (bc & <- & _). apply block_group_NoDup.
      * apply list_elem_of_In, in_map_iff in Hg as (r & <- & _).
        change (map ?f ?l) with (f <$> l).
        apply NoDup_fmap_2; [|apply NoDup_seq].
        intros c1 c2 Heq. by injection Heq.
      * apply list_elem_of_In, in_map_iff in Hg as (c & <- & _).
        change (map ?f ?l) with (f <$> l).
        apply NoDup_fmap_2; [|apply NoDup_seq].
        intros r1 r2 Heq. by injection Heq.
  - intros p Hp. pose proof Hp as [Hr Hc].
    assert (ROOT ≠ 0) as Hpos.
    { intros H0. rewrite (nrows_square HC) H0 in Hr. simpl in Hr. lia. }
    assert (p.1 / ROOT < ROOT) as Hbr.
    { apply Nat.Div0.div_lt_upper_bound. rewrite -(nrows_square HC). lia. }
    assert (p.2 / ROOT < ROOT) as Hbc.
    { apply Nat.Div0.div_lt_upper_bound. rewrite -(ncols_square HC). lia. }
    unfold create_groups. rewrite !filter_app !length_app.
    assert (length (filter (λ g, p ∈ g)
              (flat_map (λ br, map (block_group br) (seq 0 ROOT))
                        (seq 0 ROOT))) = 1) as ->.
    { apply (filter_flat_map_one _ _ _ (p.1 / ROOT)); [apply NoDup_seq| | |].
      - apply elem_of_seq. lia.
      - rewrite filter_map_length.
        apply (filter_one _ _ (p.2 / ROOT)); [apply NoDup_seq| | |].
        + apply elem_of_seq. lia.
        + by apply block_of_cell.
        + intros bc Hbc' Hin. apply elem_of_seq in Hbc'.
          apply block_of_cell in Hin; [|done|lia]. by destruct Hin as (_ & _ & ->).
      - intros br Hbr' Hne. apply filter_none. intros g Hg Hin.
        apply elem_of_seq in Hbr'.
        apply list_elem_of_In, in_map_iff in Hg as (bc & <- & Hbc').
        apply in_seq in Hbc'.
        apply block_of_cell in Hin; [|lia..]. by destruct Hin as (_ & -> & _). }
    assert (length (filter (λ g, p ∈ g)
              (map (λ r, map (λ c, (r, c)) (seq 0 NCOLS)) (seq 0 NROWS))) = 1)
      as ->.
    { rewrite filter_map_length.
      apply (filter_one _ _ p.1); [apply NoDup_seq| | |].
      - apply elem_of_seq. lia.
      - apply list_elem_of_In, in_map_iff. exists p.2.
        split; [by destruct p|apply in_seq; lia].
      - intros r _ Hin. apply list_elem_of_In, in_map_iff in Hin
          as (c & <- & _). done. }
    assert (length (filter (λ g, p ∈ g)
              (map (λ c, map (λ r, (r, c)) (seq 0 NROWS)) (seq 0 NCOLS))) = 1)
      as ->; [|done].
    rewrite filter_map_length.
    apply (filter_one _ _ p.2); [apply NoDup_seq| | |].
    + apply elem_of_seq. lia.
    + apply list_elem_of_In, in_map_iff. exists p.1.
      split; [by destruct p|apply in_seq; lia].
    + intros c _ Hin. apply list_elem_of_In, in_map_iff in Hin
        as (r & <- & _). done.
Qed.

End GroupStructure.

(** ** A True result that passes the consistency check *)

Section CheckedResult.
Context `{SdkConfig} `{SetOrder}.
Hypothesis HC : ConfigOK.
Hypothesis HO : SetOrderOK.
Hypothesis Hdistinct : NoDup CHOICES.
Hypothesis Hsize : length CHOICES = ROOT * ROOT.

Lemma occurrences_Permutation s (l k : list string) :
  l ≡ₚ k → occurrences s l = occurrences s k.
Proof. clear. unfold occurrences. by intros ->. Qed.

Lemma filter_all {A} (P : A → Prop) `{!∀ x, Decision (P x)} (l : list A) :
  Forall P l → filter P l = l.
Proof.
  clear. induction 1 as [|x l Hx _ IH]; [done|].
  by rewrite filter_cons decide_True // IH.
Qed.

(** X18 -- a checked True is a valid completion.  If [solve] returns True
    and [is_consistent] then holds on the grid, the grid is a valid
    completion of the board that [solve] was called on: every tile holds
    a symbol, every group holds each symbol exactly once, and the values
    given at the start are unchanged.  (CHOICES is assumed to list
    ROOT*ROOT distinct symbols.) *)
Theorem checked_solution_is_valid (fuel : nat) (b b' : Board) :
  board_ok b → solve fuel b = Some (true, b') → is_consistent b' = true →
  valid_completion (λ p, value (tile_at b' p)) b.
Proof.
  intros Hb Hs Hcons.
  destruct (solve_spec HC HO _ _ _ Hb Hs) as (Hb' & Hc & _). simpl in *.
  specialize (Hc eq_refl). apply is_complete_spec in Hc.
  rewrite Forall_forall in Hc.
  assert (∀ p, in_range p → value (tile_at b' p) ≠ UNKNOWN) as Hknown.
  { intros p Hp. by apply Hc, in_range_covered. }
  assert (∀ p, in_range p → value (tile_at b' p) ∈ CHOICES) as Hsym.
  { intros p Hp.
    by destruct (tile_ok_known _ (board_ok_at _ _ Hb' Hp) (Hknown p Hp)). }
  split; [split|].
  - apply Forall_forall. intros p Hp. by apply Hsym, all_pos_in_range.
  - apply Forall_forall. intros g Hg. apply Forall_forall. intros s Hs'.
    pose proof (groups_in_range HC g Hg) as Hr.
    assert (group_values b' g = (λ p, value (tile_at b' p)) <$> g) as Hvals.
    { unfold group_values. apply filter_all. apply Forall_fmap.
      eapply Forall_impl; [exact Hr|]. intros p Hp. by apply Hknown. }
    assert (NoDup ((λ p, value (tile_at b' p)) <$> g)) as Hnd.
    { rewrite -Hvals. apply length_size_NoDup.
      unfold is_consistent in Hcons. rewrite forallb_forall in Hcons.
      apply list_elem_of_In, Hcons in Hg. by apply bool_decide_eq_true in Hg. }
    assert ((λ p, value (tile_at b' p)) <$> g ≡ₚ CHOICES) as Hperm.
    { apply submseteq_length_Permutation.
      - apply NoDup_submseteq; [done|]. intros v Hv.
        apply list_elem_of_fmap in Hv as (p & -> & Hp).
        rewrite Forall_forall in Hr. by apply Hsym, Hr.
      - rewrite length_fmap (group_length HC g Hg). lia. }
    rewrite (occurrences_Permutation s _ _ Hperm).
    unfold occurrences. by apply (filter_one _ _ s).
  - unfold agrees. apply Forall_forall. intros p Hp Hk.
    apply all_pos_in_range in Hp.
    by destruct (solve_kept HC HO _ _ _ Hb Hs) as [_ ->].
Qed.

End CheckedResult.

(** ** Notifications *)

Section Notifications.
Context `{SdkConfig}.

(** X19 -- notifications of remove_candidates.  With listeners attached,
    [remove_candidates] computes the same flag and tile as without; it
    calls no listener when nothing changes, calls every listener once
    when candidates were removed, and twice (once from [set_value], once
    from itself) when the tile was promoted.  Every call carries a
    TileChanged event and finds the tile in its final state. *)
Theorem remove_candidates_notifications (listeners : list nat) (t : Tile)
    (used : gset string) :
  let r := remove_candidates_notify listeners t used in
  (r.1.1, r.1.2) = remove_candidates t used ∧
  Forall (λ n, kind n = TileChanged ∧ seen n = r.1.2) r.2 ∧
  map listener r.2
  = (if r.1.1
     then if decide (size (candidates t ∖ used) = 1)
          then listeners ++ listeners else listeners
     else []).
Proof.
  cbv zeta. unfold remove_candidates_notify, remove_candidates.
  case_decide as Hd; [by split_and!|].
  assert (∀ k u, map listener (notify_all listeners k u) = listeners) as Hmap.
  { intros k u. unfold notify_all. rewrite map_map /=. apply map_id. }
  assert (∀ u, Forall (λ n, kind n = TileChanged ∧ seen n = u)
                 (notify_all listeners TileChanged u)) as Hall.
  { intros u. unfold notify_all. apply Forall_forall. intros n Hn.
    by apply list_elem_of_In, in_map_iff in Hn as (l & <- & _). }
  destruct (elements (candidates t ∖ used)) as [|v [|w l]] eqn:He; simpl.
  - split_and!; [done|apply Hall|]. rewrite Hmap decide_False //.
    unfold size, set_size. simpl. by rewrite He.
  - split_and!; [done| |].
    + apply Forall_app. split; apply Hall.
    + rewrite map_app !Hmap decide_True //.
      unfold size, set_size. simpl. by rewrite He.
  - split_and!; [done|apply Hall|]. rewrite Hmap decide_False //.
    unfold size, set_size. simpl. by rewrite He.
Qed.

End Notifications.

(** ** Instances on the 9x9 board *)

Section MoreExamples.
#[local] Existing Instance sdk9.

Lemma naked_single_false_iff_unchanged_witness :
  (naked_single trap_filled).2 = trap_filled.
Proof.
  assert (board_ok trap_filled) as Hb by compute_done.
  apply (proj1 (@naked_single_false_iff_unchanged sdk9 sdk9_ok _ Hb)).
  vm_compute. reflexivity.
Defined.

Lemma naked_single_false_means_pruned_witness :
  value (tile_at stuck_propagated (0, 0))
  ∉ candidates (tile_at stuck_propagated (0, 8)).
Proof.
  apply (@naked_single_false_means_pruned sdk9 stuck_propagated
           [(0, 0); (0, 1); (0, 2); (0, 3); (0, 4); (0, 5); (0, 6); (0, 7);
            (0, 8)]).
  - vm_compute. reflexivity.
  - compute_done.
  - compute_done.
  - compute_done.
  - vm_compute. reflexivity.
  - compute_done.
Defined.

Lemma hidden_single_false_iff_no_single_witness :
  (@hidden_single sdk9 sorted_order trap_filled).2 = trap_filled.
Proof.
  apply (proj2 (@hidden_single_false_iff_no_single sdk9 sorted_order
                  trap_filled sorted_order_ok)).
  vm_compute. reflexivity.
Defined.

Lemma is_complete_iff_all_known_witness :
  value (tile_at trap_filled (0, 8)) ≠ UNKNOWN.
Proof.
  assert (is_complete trap_filled = true) as Hc by (vm_compute; reflexivity).
  apply (proj1 (@is_complete_iff_all_known sdk9 sdk9_ok trap_filled) Hc).
  compute_done.
Defined.

Lemma is_consistent_iff_no_duplicate_witness :
  NoDup (group_values (board_of solved_rows)
           [(0, 0); (0, 1); (0, 2); (0, 3); (0, 4); (0, 5); (0, 6); (0, 7);
            (0, 8)]).
Proof.
  assert (is_consistent (board_of solved_rows) = true) as Hc
    by (vm_compute; reflexivity).
  apply (proj1 (@is_consistent_iff_no_duplicate sdk9 (board_of solved_rows))
           Hc).
  compute_done.
Defined.

Lemma solve_on_complete_grid_witness :
  @solve sdk9 sorted_order 1 trap_filled = Some (true, trap_filled).
Proof.
  assert (board_ok trap_filled) as Hb by compute_done.
  assert (is_complete trap_filled = true) as Hc by (vm_compute; reflexivity).
  exact (proj2 (@solve_on_complete_grid sdk9 sorted_order sdk9_ok
                  sorted_order_ok _ 1 Hb Hc (le_n 1))).
Defined.

Lemma solve_true_all_known_witness :
  value (tile_at trap_filled (0, 8)) ∈ CHOICES ∧
  candidates (tile_at trap_filled (0, 8))
  = {[ value (tile_at trap_filled (0, 8)) ]}.
Proof.
  assert (board_ok (board_of trap_rows)) as Hb by compute_done.
  assert (@solve sdk9 sorted_order 2 (board_of trap_rows)
          = Some (true, trap_filled)) as Hs by (vm_compute; reflexivity).
  assert (in_range (0, 8)) as Hr by compute_done.
  exact (@solve_true_all_known sdk9 sorted_order sdk9_ok sorted_order_ok
           2 _ _ Hb Hs (0, 8) Hr).
Defined.

Lemma solve_keeps_givens_witness :
  value (tile_at (false, stuck_propagated).2 (1, 0))
  = value (tile_at (board_of stuck_rows) (1, 0)).
Proof.
  assert (board_ok (board_of stuck_rows)) as Hb by compute_done.
  assert (@solve sdk9 sorted_order 10 (board_of stuck_rows)
          = Some (false, stuck_propagated)) as Hs by (vm_compute; reflexivity).
  assert (in_range (1, 0)) as Hr by compute_done.
  assert (value (tile_at (board_of stuck_rows) (1, 0)) ≠ UNKNOWN) as Hk
    by compute_done.
  exact (@solve_keeps_givens sdk9 sorted_order sdk9_ok sorted_order_ok
           10 _ _ Hb Hs (1, 0) Hr Hk).
Defined.

Lemma propagate_only_crosses_off_witness :
  candidates (tile_at trap_filled (0, 8))
  ⊆ candidates (tile_at (board_of trap_rows) (0, 8)) ∧
  tile_at trap_filled (0, 0) = tile_at (board_of trap_rows) (0, 0).
Proof.
  assert (board_ok (board_of trap_rows)) as Hb by compute_done.
  assert (@propagate sdk9 sorted_order 2 (board_of trap_rows)
          = Some trap_filled) as Hp by (vm_compute; reflexivity).
  destruct (@propagate_only_crosses_off sdk9 sorted_order sdk9_ok
              sorted_order_ok 2 _ _ Hb Hp (0, 8)) as (Hsub & _);
    [compute_done|].
  destruct (@propagate_only_crosses_off sdk9 sorted_order sdk9_ok
              sorted_order_ok 2 _ _ Hb Hp (0, 0)) as (_ & _ & _ & Hkept & _);
    [compute_done|].
  split; [exact Hsub|]. apply Hkept. compute_done.
Defined.

Lemma solve_and_propagate_return_witness :
  ∃ r, @solve sdk9 sorted_order (solve_fuel (board_of easy_rows))
         (board_of easy_rows) = Some r.
Proof.
  assert (board_ok (board_of easy_rows)) as Hb by compute_done.
  destruct (@solve_and_propagate_return sdk9 sorted_order sdk9_ok
              sorted_order_ok _ _ Hb (le_n _)) as (_ & r & Hr & _).
  exists r. exact Hr.
Defined.

Lemma completion_implies_consistent_witness :
  is_consistent (board_of easy_rows) = true.
Proof.
  assert (valid_completion (grid_fun easy_solution) (board_of easy_rows))
    as Hv by compute_done.
  exact (@completion_implies_consistent sdk9 sdk9_ok _ _ Hv).
Defined.

Lemma propagate_keeps_completions_witness :
  valid_completion (grid_fun easy_solution)
    (default [] (@propagate sdk9 sorted_order 10 (board_of easy_rows))).
Proof.
  assert (board_ok (board_of easy_rows)) as Hb by compute_done.
  assert (latin (grid_fun easy_solution)) as Hl by compute_done.
  assert (Forall (λ p, grid_fun easy_solution p
                       ∈ candidates (tile_at (board_of easy_rows) p)) all_pos)
    as Ha by compute_done.
  assert (@propagate sdk9 sorted_order 10 (board_of easy_rows)
          = Some (default [] (@propagate sdk9 sorted_order 10
                                (board_of easy_rows)))) as Hp
    by (vm_compute; reflexivity).
  exact (proj2 (@propagate_keeps_completions sdk9 sorted_order sdk9_ok
                  sorted_order_ok 10 _ _ _ Hb Hl Ha Hp)).
Defined.

Lemma new_board_is_blank_witness :
  fresh (@empty_board sdk9).
Proof. exact (proj1 (@new_board_is_blank sdk9 sdk9_ok)). Defined.

Lemma load_as_list_round_trip_witness :
  ∃ b, load easy_rows = Some b ∧ fresh b ∧ as_list b = easy_rows.
Proof.
  assert (well_formed_rows easy_rows) as Hw by compute_done.
  exact (@load_as_list_round_trip sdk9 sdk9_ok _ Hw).
Defined.

Lemma set_tiles_short_input_witness :
  set_tiles empty_board (map str_items ["123456789"]) = None.
Proof.
  apply (@set_tiles_short_input sdk9 _ _ (1, 0)).
  - compute_done.
  - vm_compute. reflexivity.
Defined.

Lemma remove_candidates_twice_witness :
  let t := with_candidates (new_tile 0 0 ".") {[ "1"; "2"; "3" ]} in
  remove_candidates (remove_candidates t {[ "2"; "3" ]}).2 {[ "2"; "3" ]}
  = (false, (remove_candidates t {[ "2"; "3" ]}).2).
Proof.
  cbv zeta.
  assert (candidates (with_candidates (new_tile 0 0 ".") {[ "1"; "2"; "3" ]})
          ⊆ list_to_set CHOICES) as Hsub by compute_done.
  exact (@remove_candidates_twice sdk9 _ {[ "2"; "3" ]} Hsub).
Defined.

Lemma create_groups_structure_witness :
  length (filter (λ g : list pos, (4, 4) ∈ g) (@create_groups sdk9)) = 3.
Proof.
  destruct (@create_groups_structure sdk9 sdk9_ok) as (_ & _ & Hthree).
  apply Hthree. compute_done.
Defined.

Lemma checked_solution_is_valid_witness :
  valid_completion
    (λ p, value (tile_at (board_of easy_solution) p)) (board_of easy_rows).
Proof.
  assert (NoDup CHOICES) as Hd by compute_done.
  assert (length CHOICES = ROOT * ROOT) as Hn by reflexivity.
  assert (board_ok (board_of easy_rows)) as Hb by compute_done.
  assert (@solve sdk9 sorted_order 10 (board_of easy_rows)
          = Some (true, board_of easy_solution)) as Hs
    by (vm_compute; reflexivity).
  assert (is_consistent (board_of easy_solution) = true) as Hc
    by (vm_compute; reflexivity).
  exact (@checked_solution_is_valid sdk9 sorted_order sdk9_ok sorted_order_ok
           Hd Hn 10 _ _ Hb Hs Hc).
Defined.

Lemma remove_candidates_notifications_witness :
  let t := with_candidates (new_tile 0 0 ".") {[ "1"; "2"; "3" ]} in
  let ls := add_listener (add_listener [] 0) 1 in
  map listener (remove_candidates_notify ls t {[ "2"; "3" ]}).2 = [0; 1; 0; 1].
Proof.
  cbv zeta.
  destruct (@remove_candidates_notifications sdk9
              (add_listener (add_listener [] 0) 1)
              (with_candidates (new_tile 0 0 ".") {[ "1"; "2"; "3" ]})
              {[ "2"; "3" ]}) as (_ & _ & Hcalls).
  rewrite Hcalls. vm_compute. reflexivity.
Defined.

End MoreExamples.
